(** * align_elf_segments.py: raising the alignment of ELF LOAD segments to 16 KiB

    A shallow embedding of [scripts/align_elf_segments.py] and the proofs of
    its specification.  The script reads a file into a [bytearray], walks the
    program header table and rewrites the [p_align] field of every [PT_LOAD]
    entry that is below [0x4000], then writes the buffer back when something
    changed.

    Python integers are unbounded and never negative here, so offsets and field
    values are [N].  The buffer is a [list byte]; slicing, indexing and
    [struct.pack_into] are written out with what Python does out of range.
    Every buffer access, every [print] and every [open] is recorded in a trace,
    so that statements about what is (not) read or written can be stated.

    The exceptions modelled are the ones the image can cause: [IndexError] and
    [struct.error].  The environment is taken to cooperate: a path that exists
    is a regular file that can be read and written, and standard output
    accepts every line.  A run in which [open], [write] or [print] itself
    raises is outside this model, and so is the exit status of the process;
    nothing below speaks about them. *)

From Stdlib Require Import NArith ZArith Lia.
From Stdlib Require Import Strings.Byte.
From stdpp Require Import base tactics option numbers list.

Local Open Scope N_scope.

(* ------------------------------------------------------------------------- *)
(** ** Byte buffers *)

Abbreviation bytes := (list byte).

#[global] Instance byte_eq_dec : EqDecision byte := Byte.byte_eq_dec.

(** [b'\x7fELF'] *)
Definition ELFMAG : bytes := [x7f; x45; x4c; x46].

(** [d[lo:hi]] for non-negative bounds: the bounds are clamped to the buffer,
    an empty range gives the empty buffer, nothing is raised. *)
Definition slice (d : bytes) (lo hi : N) : bytes :=
  take (N.to_nat (hi - lo)) (drop (N.to_nat lo) d).

(** The byte at index [k], if the buffer has one. *)
Definition byte_at (d : bytes) (k : N) : option byte := d !! N.to_nat k.

(** Number of bytes of the buffer, [len(d)]. *)
Definition len (d : bytes) : N := N.of_nat (length d).

(* ------------------------------------------------------------------------- *)
(** ** The part of [struct] the script uses *)

(** The byte-order prefix of a format string: ['<'] or ['>']. *)
Inductive endianness := LittleEndian | BigEndian.

(** The format characters ['H'], ['I'] and ['Q']. *)
Inductive format := FmtH | FmtI | FmtQ.

Definition calcsize (f : format) : N :=
  match f with FmtH => 2 | FmtI => 4 | FmtQ => 8 end.

Fixpoint le_decode (bs : bytes) : N :=
  match bs with
  | [] => 0
  | b :: rest => Byte.to_N b + 256 * le_decode rest
  end.

Definition byte_of_N (n : N) : byte := default x00 (Byte.of_N (n mod 256)).

Fixpoint le_encode (n : nat) (v : N) : bytes :=
  match n with
  | O => []
  | S n' => byte_of_N v :: le_encode n' (v / 256)
  end.

Definition int_from_bytes (e : endianness) (bs : bytes) : N :=
  match e with
  | LittleEndian => le_decode bs
  | BigEndian => le_decode (rev bs)
  end.

Definition int_to_bytes (e : endianness) (f : format) (v : N) : bytes :=
  match e with
  | LittleEndian => le_encode (N.to_nat (calcsize f)) v
  | BigEndian => rev (le_encode (N.to_nat (calcsize f)) v)
  end.

(* ------------------------------------------------------------------------- *)
(** ** Effects: the file, the trace, exceptions *)

Inductive exn := IndexError | StructError | FileNotFoundError.

(** What the script prints, with the values it formats into the line. *)
Inductive message :=
  | MsgFileNotFound
  | MsgNotElf
  | MsgElf64 (phnum phoff : N)
  | MsgElf32 (phnum phoff : N)
  | MsgChanging (i current_align : N)
  | MsgAlready (i current_align : N)
  | MsgAligned
  | MsgAlreadyAligned.

Inductive event :=
  | EvOpenRead
  | EvOpenWrite
  | EvGetItem (k : N)
  | EvGetSlice (lo hi : N)
  | EvPackInto (f : format) (off v : N)
  | EvPrint (m : message).

#[global] Instance format_eq_dec : EqDecision format.
Proof. solve_decision. Defined.
#[global] Instance message_eq_dec : EqDecision message.
Proof. solve_decision. Defined.
#[global] Instance event_eq_dec : EqDecision event.
Proof. solve_decision. Defined.

(** The file at [filepath] ([None]: no such file) and what happened so far. *)
Record world := World { file : option bytes; events : list event }.

Inductive result (A : Type) :=
  | Done (a : A) (w : world)
  | Raised (x : exn) (w : world).
Arguments Done {A} a w.
Arguments Raised {A} x w.

Definition M (A : Type) : Type := world → result A.

#[global] Instance M_ret : MRet M := λ A a w, Done a w.
#[global] Instance M_bind : MBind M := λ A B f m w,
  match m w with
  | Done a w' => f a w'
  | Raised x w' => Raised x w'
  end.

Definition raise {A} (x : exn) : M A := λ w, Raised x w.

Definition emit (ev : event) : M unit :=
  λ w, Done () (World (file w) (events w ++ [ev])).

(** [print(...)]: the call is recorded; standard output is taken to accept
    the line. *)
Definition print (m : message) : M unit := emit (EvPrint m).

(** [os.path.exists(filepath)] *)
Definition path_exists : M bool := λ w, Done (bool_decide (is_Some (file w))) w.

(** [open(filepath, 'rb')] followed by [bytearray(f.read())]; a path that
    exists is taken to be a readable regular file. *)
Definition read_file : M bytes := λ w,
  match file w with
  | Some d => Done d (World (file w) (events w ++ [EvOpenRead]))
  | None => Raised FileNotFoundError w
  end.

(** [open(filepath, 'wb')] followed by [f.write(data)]; the file is taken to
    be writable and the write to go through. *)
Definition write_file (data : bytes) : M unit :=
  λ w, Done () (World (Some data) (events w ++ [EvOpenWrite])).

(** [data[k]] as an integer; [IndexError] past the end. *)
Definition getitem (data : bytes) (k : N) : M N :=
  emit (EvGetItem k);;
  match byte_at data k with
  | Some b => mret (Byte.to_N b)
  | None => raise IndexError
  end.

(** [data[lo:hi]] *)
Definition getslice (data : bytes) (lo hi : N) : M bytes :=
  emit (EvGetSlice lo hi);; mret (slice data lo hi).

(** [struct.unpack(endian + f, bs)[0]]: the buffer must have exactly
    [calcsize f] bytes. *)
Definition unpack (e : endianness) (f : format) (bs : bytes) : M N :=
  if len bs =? calcsize f then mret (int_from_bytes e bs) else raise StructError.

(** [struct.pack_into(endian + f, data, off, v)]: [struct.error] when [v] does
    not fit the format or the buffer is too short at [off], [IndexError] when
    [off] does not fit a signed 64-bit index.  The bytearray is updated in
    place; here the updated buffer is returned.  (A bytearray has fewer than
    [2 ^ 63] bytes, so a field that lies within it has such an offset.) *)
Definition pack_into (e : endianness) (f : format) (data : bytes) (off v : N)
  : M bytes :=
  emit (EvPackInto f off v);;
  if (v <? 256 ^ calcsize f) && (off + calcsize f <=? len data)
  then mret (list_inserts (N.to_nat off) (int_to_bytes e f v) data)
  else if off <? 2 ^ 63 then raise StructError else raise IndexError.

(** [for x in xs: body], threading the local variables [s] the body assigns. *)
Fixpoint for_each {A S} (xs : list A) (body : A → S → M S) (s : S) : M S :=
  match xs with
  | [] => mret s
  | x :: rest => s' ← body x s; for_each rest body s'
  end.

(** [range(n)] *)
Definition range (n : N) : list N := N.of_nat <$> seq 0 (N.to_nat n).

(* ------------------------------------------------------------------------- *)
(** ** The script *)

(** Lines 11-14.  The argument may be any Python integer; [~] is the
    complement of an unbounded two's complement integer.  The script never
    calls this function. *)
Definition align_to_16kb (value : Z) : Z :=
  let alignment := 0x4000%Z in
  Z.land (value + alignment - 1) (Z.lnot (alignment - 1)).

(** Lines 51-69: the body of the ELF64 loop.  The locals it assigns are the
    buffer and [modified]. *)
Definition elf64_segment (endian : endianness) (phoff phentsize : N)
    (i : N) (st : bytes * bool) : M (bytes * bool) :=
  let '(data, modified) := st in
  let ph_offset := phoff + i * phentsize in
  bs ← getslice data ph_offset (ph_offset + 4);
  p_type ← unpack endian FmtI bs;
  if p_type =? 1 then
    let align_offset := ph_offset + 0x30 in
    bs ← getslice data align_offset (align_offset + 8);
    current_align ← unpack endian FmtQ bs;
    if current_align <? 0x4000 then
      print (MsgChanging i current_align);;
      data ← pack_into endian FmtQ data align_offset 0x4000;
      mret (data, true)
    else
      print (MsgAlready i current_align);;
      mret (data, modified)
  else mret (data, modified).

(** Lines 79-93: the body of the ELF32 loop. *)
Definition elf32_segment (endian : endianness) (phoff phentsize : N)
    (i : N) (st : bytes * bool) : M (bytes * bool) :=
  let '(data, modified) := st in
  let ph_offset := phoff + i * phentsize in
  bs ← getslice data ph_offset (ph_offset + 4);
  p_type ← unpack endian FmtI bs;
  if p_type =? 1 then
    let align_offset := ph_offset + 0x1c in
    bs ← getslice data align_offset (align_offset + 4);
    current_align ← unpack endian FmtI bs;
    if current_align <? 0x4000 then
      print (MsgChanging i current_align);;
      data ← pack_into endian FmtI data align_offset 0x4000;
      mret (data, true)
    else
      print (MsgAlready i current_align);;
      mret (data, modified)
  else mret (data, modified).

(** Lines 41-69. *)
Definition elf64_branch (endian : endianness) (data : bytes) : M (bytes * bool) :=
  bs ← getslice data 0x20 0x28;
  phoff ← unpack endian FmtQ bs;
  bs ← getslice data 0x38 0x3a;
  phnum ← unpack endian FmtH bs;
  let phentsize := 56 in
  print (MsgElf64 phnum phoff);;
  let modified := false in
  for_each (range phnum) (elf64_segment endian phoff phentsize) (data, modified).

(** Lines 71-93. *)
Definition elf32_branch (endian : endianness) (data : bytes) : M (bytes * bool) :=
  bs ← getslice data 0x1c 0x20;
  phoff ← unpack endian FmtI bs;
  bs ← getslice data 0x2c 0x2e;
  phnum ← unpack endian FmtH bs;
  let phentsize := 32 in
  print (MsgElf32 phnum phoff);;
  let modified := false in
  for_each (range phnum) (elf32_segment endian phoff phentsize) (data, modified).

(** Lines 31-93: from the identification bytes to the end of the loop. *)
Definition patch_segments (data : bytes) : M (bytes * bool) :=
  ei_class ← getitem data 4;
  let is_64bit := ei_class =? 2 in
  ei_data ← getitem data 5;
  let is_little_endian := ei_data =? 1 in
  let endian := if is_little_endian then LittleEndian else BigEndian in
  if is_64bit then elf64_branch endian data else elf32_branch endian data.

(** Lines 16-103.  The result is the function's return value. *)
Definition align_elf_to_16kb : M bool :=
  found ← path_exists;
  if negb found then
    print MsgFileNotFound;; mret false
  else
    data ← read_file;
    magic ← getslice data 0 4;
    if negb (bool_decide (magic = ELFMAG)) then
      print MsgNotElf;; mret false
    else
      '(data, modified) ← patch_segments data;
      if modified : bool then
        write_file data;;
        print MsgAligned;;
        mret true
      else
        print MsgAlreadyAligned;;
        mret true.

(** The script run on a file holding [d]. *)
Definition run (d : bytes) : result bool := align_elf_to_16kb (World (Some d) []).

(* ------------------------------------------------------------------------- *)
(** ** Reading the image without effects

    The same reads as pure functions of the buffer, used to state what the
    script does: a field is [None] where [struct.unpack] would raise. *)

(** Append events to the trace of a world. *)
Definition log (evs : list event) (w : world) : world :=
  World (file w) (events w ++ evs).

(** The unsigned integer of format [f] at offset [off]. *)
Definition read_uint (e : endianness) (f : format) (d : bytes) (off : N)
  : option N :=
  let bs := slice d off (off + calcsize f) in
  if len bs =? calcsize f then Some (int_from_bytes e bs) else None.

(** What the header says, as the script reads it: word width from byte 4, byte
    order from byte 5, then [e_phoff] and [e_phnum]. *)
Record table := Table {
  t_is64 : bool;
  t_endian : endianness;
  t_phoff : N;
  t_phnum : N
}.

Definition header (d : bytes) : option table :=
  ei_class ← byte_at d 4;
  ei_data ← byte_at d 5;
  let is64 := Byte.to_N ei_class =? 2 in
  let e := if Byte.to_N ei_data =? 1 then LittleEndian else BigEndian in
  phoff ← (if is64 then read_uint e FmtQ d 0x20 else read_uint e FmtI d 0x1c);
  phnum ← (if is64 then read_uint e FmtH d 0x38 else read_uint e FmtH d 0x2c);
  Some (Table is64 e phoff phnum).

(** The accesses and the line printed while the header is read. *)
Definition header_events (t : table) : list event :=
  [EvGetItem 4; EvGetItem 5] ++
  (if t_is64 t
   then [EvGetSlice 0x20 0x28; EvGetSlice 0x38 0x3a;
         EvPrint (MsgElf64 (t_phnum t) (t_phoff t))]
   else [EvGetSlice 0x1c 0x20; EvGetSlice 0x2c 0x2e;
         EvPrint (MsgElf32 (t_phnum t) (t_phoff t))]).

(** Size of a program header entry, offset and format of [p_align] in it. *)
Definition phentsize (is64 : bool) : N := if is64 then 56 else 32.
Definition align_field (is64 : bool) : N := if is64 then 0x30 else 0x1c.
Definition align_fmt (is64 : bool) : format := if is64 then FmtQ else FmtI.

(** The loop body of the branch taken for the table [t]. *)
Definition segment (t : table) : N → bytes * bool → M (bytes * bool) :=
  if t_is64 t
  then elf64_segment (t_endian t) (t_phoff t) 56
  else elf32_segment (t_endian t) (t_phoff t) 32.

Definition ph_offset (t : table) (i : N) : N := t_phoff t + i * phentsize (t_is64 t).
Definition align_offset (t : table) (i : N) : N := ph_offset t i + align_field (t_is64 t).
Definition align_end (t : table) (i : N) : N :=
  align_offset t i + calcsize (align_fmt (t_is64 t)).

Definition p_type (t : table) (d : bytes) (i : N) : option N :=
  read_uint (t_endian t) FmtI d (ph_offset t i).
Definition p_align (t : table) (d : bytes) (i : N) : option N :=
  read_uint (t_endian t) (align_fmt (t_is64 t)) d (align_offset t i).

(** The bytes of the alignment field of entry [i]. *)
Definition align_bytes (t : table) (d : bytes) (i : N) : bytes :=
  slice d (align_offset t i) (align_end t i).

(** Byte [k] lies in the alignment field of entry [i]. *)
Definition in_align_field (t : table) (i k : N) : Prop :=
  align_offset t i ≤ k < align_end t i.

(** [0x4000] in the width of the table's alignment field and its byte order. *)
Definition packed_16kb (t : table) : bytes :=
  int_to_bytes (t_endian t) (align_fmt (t_is64 t)) 0x4000.

(** Entry [i] is a LOAD segment whose alignment is below [0x4000]. *)
Definition needs_fix (t : table) (d : bytes) (i : N) : bool :=
  match p_type t d i, p_align t d i with
  | Some ty, Some a => (ty =? 1) && (a <? 0x4000)
  | _, _ => false
  end.

(** Locals after one iteration, [None] when it raises [struct.error]. *)
Definition segment_result (t : table) (d : bytes) (m : bool) (i : N)
  : option (bytes * bool) :=
  match p_type t d i with
  | None => None
  | Some ty =>
      if ty =? 1 then
        match p_align t d i with
        | None => None
        | Some a =>
            if a <? 0x4000
            then Some (list_inserts (N.to_nat (align_offset t i)) (packed_16kb t) d, true)
            else Some (d, m)
        end
      else Some (d, m)
  end.

(** Accesses and lines printed by one iteration. *)
Definition segment_events (t : table) (d : bytes) (i : N) : list event :=
  EvGetSlice (ph_offset t i) (ph_offset t i + 4) ::
  match p_type t d i with
  | None => []
  | Some ty =>
      if ty =? 1 then
        EvGetSlice (align_offset t i) (align_end t i) ::
        match p_align t d i with
        | None => []
        | Some a =>
            if a <? 0x4000
            then [EvPrint (MsgChanging i a);
                  EvPackInto (align_fmt (t_is64 t)) (align_offset t i) 0x4000]
            else [EvPrint (MsgAlready i a)]
        end
      else []
  end.

(** Size of the ELF header for each word width. *)
Definition ehsize (is64 : bool) : N := if is64 then 64 else 52.

(** A well-formed image, as far as this script reads it: the magic, a complete
    ELF header, and a program header table that starts after the ELF header
    and lies within the image.  The identification bytes 4 and 5 are read the
    way the script reads them. *)
Definition well_formed (d : bytes) : Prop :=
  slice d 0 4 = ELFMAG ∧
  ∃ t, header d = Some t ∧
       ehsize (t_is64 t) ≤ len d ∧
       ehsize (t_is64 t) ≤ t_phoff t ∧
       t_phoff t + t_phnum t * phentsize (t_is64 t) ≤ len d.

(** Two buffers hold the same bytes at the indices [lo], ..., [hi-1]. *)
Definition agree_on (lo hi : N) (d d' : bytes) : Prop :=
  ∀ k, lo ≤ k < hi → byte_at d k = byte_at d' k.

(** The indices [lo], [lo+1], ..., [lo+n-1]. *)
Fixpoint indices_from (lo : N) (n : nat) : list N :=
  match n with
  | O => []
  | S n' => lo :: indices_from (lo + 1) n'
  end.

(** Two buffers show the same entry [i]. *)
Definition same_entry (t : table) (d d' : bytes) (i : N) : Prop :=
  p_type t d i = p_type t d' i ∧
  p_align t d i = p_align t d' i ∧
  align_bytes t d i = align_bytes t d' i.

(** Locals at the end of the loop over [ixs], [None] when an iteration raises. *)
Fixpoint loop_result (t : table) (ixs : list N) (st : bytes * bool)
  : option (bytes * bool) :=
  match ixs with
  | [] => Some st
  | i :: rest =>
      match segment_result t st.1 st.2 i with
      | Some st1 => loop_result t rest st1
      | None => None
      end
  end.

(** What the loop logs, up to the iteration that raises if one does. *)
Fixpoint loop_events (t : table) (ixs : list N) (st : bytes * bool) : list event :=
  match ixs with
  | [] => []
  | i :: rest =>
      segment_events t st.1 i ++
      match segment_result t st.1 st.2 i with
      | Some st1 => loop_events t rest st1
      | None => []
      end
  end.

(** The world a result ends in. *)
Definition world_of {A} (r : result A) : world :=
  match r with Done _ w => w | Raised _ w => w end.

(** Every entry the loop visits can be read: its type field lies within the
    buffer, and so does its alignment field when the type is 1. *)
Definition entries_readable (t : table) (d : bytes) : Prop :=
  ∀ i, i < t_phnum t →
    ∃ ty, p_type t d i = Some ty ∧ (ty = 1 → is_Some (p_align t d i)).

(** Byte [k] is one of the two least significant bytes of the alignment field
    of entry [i]: the first two in little-endian order, the last two in
    big-endian order. *)
Definition low_bytes (t : table) (i k : N) : Prop :=
  match t_endian t with
  | LittleEndian => align_offset t i ≤ k < align_offset t i + 2
  | BigEndian => align_end t i - 2 ≤ k < align_end t i
  end.

(** The lines printed, in order. *)
Definition printed (evs : list event) : list message :=
  omap (λ ev, match ev with EvPrint m => Some m | _ => None end) evs.

(** The line the loop prints for entry [i], if it prints one. *)
Definition segment_line (t : table) (d : bytes) (i : N) : option message :=
  match p_type t d i with
  | Some ty =>
      if ty =? 1 then
        match p_align t d i with
        | Some a => Some (if a <? 0x4000 then MsgChanging i a else MsgAlready i a)
        | None => None
        end
      else None
  | None => None
  end.

(* ------------------------------------------------------------------------- *)
(** ** Concrete images *)

Definition blank (n : nat) : bytes := replicate n x00.

(** [bs] written over [d] at offset [off]. *)
Definition poke (off : N) (bs d : bytes) : bytes := list_inserts (N.to_nat off) bs d.

(** A minimal 64-bit little-endian image: the ELF header and one PT_LOAD
    entry at offset 64 whose alignment is [0x1000]. *)
Definition elf64_4k : bytes :=
  poke 112 (int_to_bytes LittleEndian FmtQ 0x1000)
  (poke 64 (int_to_bytes LittleEndian FmtI 1)
  (poke 0x38 (int_to_bytes LittleEndian FmtH 1)
  (poke 0x20 (int_to_bytes LittleEndian FmtQ 64)
  (poke 0 (ELFMAG ++ [x02; x01; x01]) (blank 120))))).

Definition elf64_4k_table : table := Table true LittleEndian 64 1.

(** The same image with the alignment [0x4000]. *)
Definition elf64_16k : bytes :=
  poke 112 (int_to_bytes LittleEndian FmtQ 0x4000) elf64_4k.

(** A 32-bit big-endian image with three entries at offset 52: PT_LOAD with
    alignment [0x10000], PT_NOTE with alignment 4, PT_LOAD with alignment 0. *)
Definition elf32_be : bytes :=
  poke 144 (int_to_bytes BigEndian FmtI 0)
  (poke 116 (int_to_bytes BigEndian FmtI 1)
  (poke 112 (int_to_bytes BigEndian FmtI 4)
  (poke 84 (int_to_bytes BigEndian FmtI 4)
  (poke 80 (int_to_bytes BigEndian FmtI 0x10000)
  (poke 52 (int_to_bytes BigEndian FmtI 1)
  (poke 0x2c (int_to_bytes BigEndian FmtH 3)
  (poke 0x1c (int_to_bytes BigEndian FmtI 52)
  (poke 0 (ELFMAG ++ [x01; x02; x01]) (blank 148))))))))).

Definition elf32_be_table : table := Table false BigEndian 52 3.

(** [elf32_be] with the alignment of its last entry raised. *)
Definition elf32_be_out : bytes :=
  poke 144 (int_to_bytes BigEndian FmtI 0x4000) elf32_be.

(** [elf32_be] with a class byte and a byte-order byte the format does not
    define. *)
Definition elf_odd_ident : bytes := poke 4 [x07; x09] elf32_be.

(** [elf64_4k] cut off in the middle of its only entry. *)
Definition elf64_truncated : bytes := take 100 elf64_4k.

(** A 63-byte image whose program header table lies inside the ELF header, at
    offset 7: the alignment field of its entry covers the bytes of
    [e_phnum]. *)
Definition elf64_overlap : bytes :=
  poke 56 [x01]
  (poke 32 (int_to_bytes LittleEndian FmtQ 7)
  (poke 7 [x01]
  (poke 0 (ELFMAG ++ [x02; x01]) (blank 63)))).

(* ------------------------------------------------------------------------- *)
(** ** Tactics *)

(** Closes [ev ∉ l] for an explicit list [l] of other events. *)
Ltac not_in_list :=
  let H := fresh in
  intros H;
  repeat (apply elem_of_cons in H as [H|H]; [discriminate H|]);
  by apply elem_of_nil in H.

Ltac raised_with_log :=
  eexists _, _; split;
  [unfold log; simpl; rewrite <- ?app_assoc; reflexivity | not_in_list].

Ltac table_arith :=
  unfold in_align_field, align_end, align_offset, ph_offset, phentsize,
    align_field, align_fmt, ehsize in *;
  repeat match goal with
         | t : table |- _ => destruct t as [[] ? ? ?]
         end;
  simpl in *; lia.
(* ------------------------------------------------------------------------- *)
(** ** Buffers: slices and in-place writes *)

Lemma len_slice d lo hi : len (slice d lo hi) = N.min (hi - lo) (len d - lo).
Proof. unfold len, slice. rewrite length_take, length_drop. lia. Qed.

Lemma byte_at_slice d lo hi k :
  byte_at (slice d lo hi) k = if decide (k < hi - lo) then byte_at d (lo + k) else None.
Proof.
  unfold byte_at, slice. case_decide.
  - rewrite lookup_take_lt by lia. rewrite lookup_drop. f_equal. lia.
  - apply lookup_take_ge. lia.
Qed.

Lemma bytes_eq (d d' : bytes) : (∀ k, byte_at d k = byte_at d' k) → d = d'.
Proof.
  intros H. apply list_eq. intros i. specialize (H (N.of_nat i)).
  unfold byte_at in H. by rewrite Nat2N.id in H.
Qed.

Lemma slice_agree d d' lo hi : agree_on lo hi d d' → slice d lo hi = slice d' lo hi.
Proof.
  intros H. apply bytes_eq. intros k. rewrite !byte_at_slice.
  case_decide; [apply H; lia | done].
Qed.

Lemma read_uint_agree e f d d' off :
  agree_on off (off + calcsize f) d d' → read_uint e f d off = read_uint e f d' off.
Proof. intros H. unfold read_uint. by rewrite (slice_agree d d'). Qed.

Lemma read_uint_Some e f d off v :
  read_uint e f d off = Some v → off + calcsize f ≤ len d.
Proof.
  unfold read_uint. rewrite len_slice. destruct (N.eqb_spec (N.min (off + calcsize f - off) (len d - off)) (calcsize f)); [|done].
  intros _. destruct f; simpl in *; lia.
Qed.

Lemma read_uint_in_bounds e f d off :
  off + calcsize f ≤ len d → is_Some (read_uint e f d off).
Proof.
  intros H. unfold read_uint. rewrite len_slice.
  destruct (N.eqb_spec (N.min (off + calcsize f - off) (len d - off)) (calcsize f)); [eauto|lia].
Qed.

Lemma len_inserts off bs d : len (list_inserts off bs d) = len d.
Proof. unfold len. by rewrite length_inserts. Qed.

Lemma byte_at_inserts_outside off bs d k :
  ¬ (off ≤ k < off + len bs) →
  byte_at (list_inserts (N.to_nat off) bs d) k = byte_at d k.
Proof.
  intros H. unfold byte_at, len in *.
  destruct (decide (k < off)).
  - apply list_lookup_inserts_lt. lia.
  - apply list_lookup_inserts_ge. lia.
Qed.

Lemma slice_inserts off bs d :
  off + len bs ≤ len d →
  slice (list_inserts (N.to_nat off) bs d) off (off + len bs) = bs.
Proof.
  intros H. apply bytes_eq. intros k. rewrite byte_at_slice.
  unfold byte_at, len in *. case_decide.
  - rewrite list_lookup_inserts by lia. f_equal. lia.
  - symmetry. apply lookup_ge_None. lia.
Qed.

(* ------------------------------------------------------------------------- *)
(** ** One iteration of the loop *)

Lemma log_log evs evs' w : log evs' (log evs w) = log (evs ++ evs') w.
Proof. unfold log. simpl. by rewrite app_assoc. Qed.

Lemma log_nil w : log [] w = w.
Proof. destruct w. unfold log. simpl. by rewrite app_nil_r. Qed.

Lemma len_packed_16kb t : len (packed_16kb t) = calcsize (align_fmt (t_is64 t)).
Proof. by destruct t as [[] [] ? ?]. Qed.

(** A slice handed to [struct.unpack] is one field read. *)
Lemma read_field_eq {A} e f d lo (k : N → M A) w :
  (bs ← getslice d lo (lo + calcsize f); v ← unpack e f bs; k v) w =
  match read_uint e f d lo with
  | Some v => k v (log [EvGetSlice lo (lo + calcsize f)] w)
  | None => Raised StructError (log [EvGetSlice lo (lo + calcsize f)] w)
  end.
Proof.
  unfold read_uint.
  cbv [mbind M_bind getslice unpack emit mret M_ret raise log].
  by destruct (len (slice d lo (lo + calcsize f)) =? calcsize f).
Qed.

(** The monadic loop body computes [segment_result] and logs
    [segment_events]; the only exception it raises is [struct.error]. *)
Lemma segment_eq t d m i w :
  segment t i (d, m) w =
  match segment_result t d m i with
  | Some st => Done st (log (segment_events t d i) w)
  | None => Raised StructError (log (segment_events t d i) w)
  end.
Proof.
  unfold segment, segment_result, segment_events, p_type, p_align.
  destruct t as [is64 e phoff phnum].
  destruct is64; simpl.
  - unfold elf64_segment.
    rewrite (read_field_eq e FmtI).
    unfold align_end; unfold align_offset; unfold ph_offset, phentsize, align_field, align_fmt, packed_16kb; simpl.
    destruct (read_uint e FmtI d (phoff + i * 56)) as [ty|]; [|done].
    destruct (ty =? 1); [|done].
    rewrite (read_field_eq e FmtQ). simpl.
    destruct (read_uint e FmtQ d (phoff + i * 56 + 48)) as [a|] eqn:Ha; [|by rewrite log_log].
    apply read_uint_Some in Ha. simpl in Ha.
    cbv [mbind M_bind print pack_into emit mret M_ret raise]. simpl.
    destruct (a <? 16384); [|unfold log; simpl; by rewrite <- !app_assoc].
    destruct (N.leb_spec (phoff + i * 56 + 48 + 8) (len d)); [|lia].
    unfold log; simpl. by rewrite <- !app_assoc.
  - unfold elf32_segment.
    rewrite (read_field_eq e FmtI).
    unfold align_end; unfold align_offset; unfold ph_offset, phentsize, align_field, align_fmt, packed_16kb; simpl.
    destruct (read_uint e FmtI d (phoff + i * 32)) as [ty|]; [|done].
    destruct (ty =? 1); [|done].
    rewrite (read_field_eq e FmtI). simpl.
    destruct (read_uint e FmtI d (phoff + i * 32 + 28)) as [a|] eqn:Ha; [|by rewrite log_log].
    apply read_uint_Some in Ha. simpl in Ha.
    cbv [mbind M_bind print pack_into emit mret M_ret raise]. simpl.
    destruct (a <? 16384); [|unfold log; simpl; by rewrite <- !app_assoc].
    destruct (N.leb_spec (phoff + i * 32 + 28 + 4) (len d)); [|lia].
    unfold log; simpl. by rewrite <- !app_assoc.
Qed.

(** Reading the header: the loop starts from the table [header] reads, with
    [modified] false; an unreadable header raises. *)
Lemma patch_segments_eq d w :
  match header d with
  | Some t =>
      patch_segments d w =
      for_each (range (t_phnum t)) (segment t) (d, false) (log (header_events t) w)
  | None => ∃ x evs, patch_segments d w = Raised x (log evs w) ∧ EvOpenWrite ∉ evs
  end.
Proof.
  unfold header, patch_segments.
  cbv [mbind M_bind getitem emit mret M_ret raise option_bind]. simpl.
  destruct (byte_at d 4) as [c|]; simpl; [|raised_with_log].
  destruct (byte_at d 5) as [b|]; simpl; [|raised_with_log].
  destruct (Byte.to_N c =? 2); simpl.
  - unfold elf64_branch.
    rewrite (read_field_eq _ FmtQ d 0x20).
    destruct (read_uint _ FmtQ d 32) as [phoff|]; simpl; [|raised_with_log].
    rewrite (read_field_eq _ FmtH d 0x38).
    destruct (read_uint _ FmtH d 56) as [phnum|]; simpl; [|raised_with_log].
    cbv [mbind M_bind print emit]. unfold log; simpl. by rewrite <- !app_assoc.
  - unfold elf32_branch.
    rewrite (read_field_eq _ FmtI d 0x1c).
    destruct (read_uint _ FmtI d 28) as [phoff|]; simpl; [|raised_with_log].
    rewrite (read_field_eq _ FmtH d 0x2c).
    destruct (read_uint _ FmtH d 44) as [phnum|]; simpl; [|raised_with_log].
    cbv [mbind M_bind print emit]. unfold log; simpl. by rewrite <- !app_assoc.
Qed.

(* ------------------------------------------------------------------------- *)
(** ** Entries do not overlap *)

Lemma fmap_seq_indices j n : N.of_nat <$> seq j n = indices_from (N.of_nat j) n.
Proof.
  revert j. induction n as [|n IH]; intros j; simpl; [done|].
  f_equal. rewrite IH. f_equal. lia.
Qed.

Lemma range_indices n : range n = indices_from 0 (N.to_nat n).
Proof. unfold range. by rewrite fmap_seq_indices. Qed.

Lemma elem_of_indices_from lo n i :
  i ∈ indices_from lo n ↔ lo ≤ i < lo + N.of_nat n.
Proof.
  revert lo. induction n as [|n IH]; intros lo; simpl.
  - rewrite elem_of_nil. lia.
  - rewrite elem_of_cons, IH. lia.
Qed.

Lemma elem_of_range n i : i ∈ range n ↔ i < n.
Proof. rewrite range_indices, elem_of_indices_from. lia. Qed.

Lemma existsb_ext_in {A} (f g : A → bool) (l : list A) :
  (∀ x, x ∈ l → f x = g x) → existsb f l = existsb g l.
Proof.
  induction l as [|x l IH]; intros H; simpl; [done|].
  rewrite (H x) by left. rewrite IH; [done|]. intros y Hy. apply H. by right.
Qed.

Lemma existsb_false_in {A} (f : A → bool) (l : list A) :
  existsb f l = false ↔ ∀ x, x ∈ l → f x = false.
Proof.
  induction l as [|x l IH]; simpl.
  - split; [intros _ y Hy; by apply elem_of_nil in Hy|done].
  - rewrite orb_false_iff, IH. split.
    + intros [Hx Hl] y Hy. apply elem_of_cons in Hy as [->|Hy]; auto.
    + intros H. split; [apply H; left|intros y Hy; apply H; by right].
Qed.

Lemma flat_map_ext_in {A B} (f g : A → list B) (l : list A) :
  (∀ x, x ∈ l → f x = g x) → flat_map f l = flat_map g l.
Proof.
  induction l as [|x l IH]; intros H; simpl; [done|].
  rewrite (H x) by left. rewrite IH; [done|]. intros y Hy. apply H. by right.
Qed.

(** An entry is read from its own window only. *)
Lemma same_entry_agree t d d' i :
  agree_on (ph_offset t i) (align_end t i) d d' → same_entry t d d' i.
Proof.
  intros H. unfold same_entry, p_type, p_align, align_bytes. split_and!.
  - apply read_uint_agree. intros k Hk. apply H. simpl in Hk. table_arith.
  - apply read_uint_agree. intros k Hk. apply H. table_arith.
  - apply slice_agree. intros k Hk. apply H. table_arith.
Qed.

Lemma same_entry_needs_fix t d d' i :
  same_entry t d d' i → needs_fix t d i = needs_fix t d' i.
Proof. intros (H1 & H2 & _). unfold needs_fix. by rewrite H1, H2. Qed.

Lemma same_entry_events t d d' i :
  same_entry t d d' i → segment_events t d i = segment_events t d' i.
Proof. intros (H1 & H2 & _). unfold segment_events. by rewrite H1, H2. Qed.

(** ** What one iteration does to the buffer *)

Lemma segment_result_spec t d m i d1 m1 :
  segment_result t d m i = Some (d1, m1) →
  len d1 = len d ∧
  (∀ k, ¬ (needs_fix t d i = true ∧ in_align_field t i k) →
        byte_at d1 k = byte_at d k) ∧
  (∃ ty, p_type t d i = Some ty ∧
     (ty = 1 → ∃ a, p_align t d i = Some a ∧
        align_bytes t d1 i =
          if a <? 0x4000 then packed_16kb t else align_bytes t d i)) ∧
  m1 = m || needs_fix t d i.
Proof.
  unfold segment_result, needs_fix.
  destruct (p_type t d i) as [ty|] eqn:Hty; [|done].
  destruct (N.eqb_spec ty 1) as [->|Hne]; simpl.
  - destruct (p_align t d i) as [a|] eqn:Ha; [|done].
    destruct (a <? 0x4000) eqn:Hlt; intros [= <- <-].
    + apply read_uint_Some in Ha.
      pose proof (len_packed_16kb t) as Hlen.
      split_and!.
      * apply len_inserts.
      * intros k Hk. apply byte_at_inserts_outside. rewrite Hlen.
        intros Hin. apply Hk. split; [done|]. unfold in_align_field, align_end. lia.
      * exists 1. split; [done|]. intros _. exists a. split; [done|].
        rewrite Hlt. unfold align_bytes, align_end. rewrite <- Hlen.
        apply slice_inserts. lia.
      * by destruct m.
    + split_and!; [done|done| |by destruct m].
      exists 1. split; [done|]. intros _. exists a. by rewrite Hlt.
  - intros [= <- <-].
    split_and!; [done|done| |by destruct (p_align t d i), m].
    exists ty. split; [done|]. done.
Qed.

(** ** The loop *)

Lemma loop_spec t n : ∀ lo d m w d' m' w',
  for_each (indices_from lo n) (segment t) (d, m) w = Done (d', m') w' →
  len d' = len d ∧
  (∀ k, (∀ i, i ∈ indices_from lo n → needs_fix t d i = true →
              ¬ in_align_field t i k) →
        byte_at d' k = byte_at d k) ∧
  (∀ i, i ∈ indices_from lo n →
     ∃ ty, p_type t d i = Some ty ∧
       (ty = 1 → ∃ a, p_align t d i = Some a ∧
          align_bytes t d' i =
            if a <? 0x4000 then packed_16kb t else align_bytes t d i)) ∧
  m' = m || existsb (needs_fix t d) (indices_from lo n) ∧
  w' = log (flat_map (segment_events t d) (indices_from lo n)) w.
Proof.
  induction n as [|n IH]; intros lo d m w d' m' w'; simpl.
  - intros [= <- <- <-]. split_and!; try done.
    + intros i Hi. by apply elem_of_nil in Hi.
    + by rewrite orb_false_r.
    + by rewrite log_nil.
  - unfold mbind at 1, M_bind at 1. rewrite segment_eq.
    destruct (segment_result t d m lo) as [[d1 m1]|] eqn:Hstep; [|done].
    intros Hrest. apply IH in Hrest as (Hlen & Hout & Hent & Hm & Hw).
    apply segment_result_spec in Hstep as (Hlen1 & Hout1 & Hent1 & Hm1).
    (* entries after [lo] look the same before and after the first step *)
    assert (Hsame : ∀ i, i ∈ indices_from (lo + 1) n → same_entry t d1 d i).
    { intros i Hi. apply elem_of_indices_from in Hi.
      apply same_entry_agree. intros k Hk. apply Hout1.
      intros [_ Hin]. table_arith. }
    split_and!.
    + congruence.
    + intros k Hk. rewrite Hout, Hout1; [done| |].
      * intros [Hfix Hin]. by apply (Hk lo); [left|..].
      * intros i Hi Hfix. apply Hk; [by right|].
        by rewrite <- (same_entry_needs_fix t d1 d i) by auto.
    + intros i Hi. apply elem_of_cons in Hi as [->|Hi].
      * destruct Hent1 as (ty & Hty & Hal). exists ty. split; [done|].
        intros Hone. destruct (Hal Hone) as (a & Ha & Hbytes).
        exists a. split; [done|]. rewrite <- Hbytes.
        unfold align_bytes. apply slice_agree. intros k Hk. apply Hout.
        intros i Hi _ Hin. apply elem_of_indices_from in Hi. table_arith.
      * destruct (Hsame i Hi) as (E1 & E2 & E3).
        destruct (Hent i Hi) as (ty & Hty & Hal). exists ty.
        split; [congruence|]. intros Hone.
        destruct (Hal Hone) as (a & Ha & Hbytes). exists a.
        split; [congruence|]. by rewrite <- E3.
    + rewrite Hm, Hm1, <- orb_assoc. f_equal. f_equal.
      apply existsb_ext_in. intros i Hi. by apply same_entry_needs_fix, Hsame.
    + rewrite Hw, log_log.
      rewrite (flat_map_ext_in (segment_events t d1) (segment_events t d)); [done|].
      intros i Hi. by apply same_entry_events, Hsame.
Qed.

(** ** The loop without the monad *)

Lemma for_each_eq t ixs : ∀ st w,
  for_each ixs (segment t) st w =
  match loop_result t ixs st with
  | Some st' => Done st' (log (loop_events t ixs st) w)
  | None => Raised StructError (log (loop_events t ixs st) w)
  end.
Proof.
  induction ixs as [|i ixs IH]; intros [d m] w; simpl.
  - by rewrite log_nil.
  - unfold mbind at 1, M_bind at 1. rewrite segment_eq.
    destruct (segment_result t d m i) as [st1|]; [|by rewrite app_nil_r].
    rewrite IH, log_log. by destruct (loop_result t ixs st1).
Qed.

Lemma segment_events_no_write t d i : EvOpenWrite ∉ segment_events t d i.
Proof.
  unfold segment_events.
  destruct (p_type t d i) as [ty|]; [destruct (ty =? 1)|];
    [destruct (p_align t d i) as [a|]; [destruct (a <? 0x4000)|]|..];
    not_in_list.
Qed.

Lemma loop_events_no_write t ixs : ∀ st, EvOpenWrite ∉ loop_events t ixs st.
Proof.
  induction ixs as [|i ixs IH]; intros st; cbn [loop_events];
    [apply not_elem_of_nil|].
  rewrite not_elem_of_app. split; [apply segment_events_no_write|].
  destruct (segment_result t st.1 st.2 i) as [st1|]; [apply IH|apply not_elem_of_nil].
Qed.

Lemma header_events_no_write t : EvOpenWrite ∉ header_events t.
Proof. unfold header_events. destruct (t_is64 t); simpl; not_in_list. Qed.

(** Every entry within the buffer: the loop ends normally. *)
Lemma loop_total t n : ∀ lo d m,
  (∀ i, i ∈ indices_from lo n → align_end t i ≤ len d) →
  is_Some (loop_result t (indices_from lo n) (d, m)).
Proof.
  induction n as [|n IH]; intros lo d m Hin; simpl; [eauto|].
  assert (align_end t lo ≤ len d) as Hlo by (apply Hin; left).
  destruct (read_uint_in_bounds (t_endian t) FmtI d (ph_offset t lo)) as [ty Hty].
  { simpl. table_arith. }
  destruct (read_uint_in_bounds (t_endian t) (align_fmt (t_is64 t)) d (align_offset t lo))
    as [a Ha]; [done|].
  destruct (segment_result t d m lo) as [[d1 m1]|] eqn:Hstep.
  - apply segment_result_spec in Hstep as (Hlen & _).
    apply IH. intros i Hi. rewrite Hlen. apply Hin. by right.
  - unfold segment_result, p_type, p_align in Hstep. rewrite Hty, Ha in Hstep.
    destruct (ty =? 1); [destruct (a <? 0x4000)|]; done.
Qed.

(** An entry whose type field is cut off by the end of the buffer: the loop
    raises. *)
Lemma loop_truncated t n : ∀ lo d m i,
  i ∈ indices_from lo n → len d < ph_offset t i + 4 →
  loop_result t (indices_from lo n) (d, m) = None.
Proof.
  induction n as [|n IH]; intros lo d m i Hi Hcut; simpl.
  - by apply elem_of_nil in Hi.
  - destruct (segment_result t d m lo) as [[d1 m1]|] eqn:Hstep; [|done].
    apply segment_result_spec in Hstep as (Hlen & _ & (ty & Hty & _) & _).
    apply elem_of_cons in Hi as [->|Hi].
    + apply read_uint_Some in Hty. simpl in Hty. lia.
    + apply (IH _ _ _ i); [done|]. by rewrite Hlen.
Qed.

(* ------------------------------------------------------------------------- *)
(** ** The whole table *)

Lemma p_align_of_bytes t d d' i :
  align_bytes t d' i = align_bytes t d i → p_align t d' i = p_align t d i.
Proof.
  unfold p_align, read_uint, align_bytes, align_end. by intros ->.
Qed.

Lemma p_align_packed t d i :
  align_bytes t d i = packed_16kb t → p_align t d i = Some 0x4000.
Proof.
  unfold p_align, read_uint, align_bytes, align_end. intros ->.
  by destruct t as [[] [] ? ?].
Qed.

Lemma patch_segments_closed d w t :
  header d = Some t →
  patch_segments d w =
  match loop_result t (range (t_phnum t)) (d, false) with
  | Some st =>
      Done st (log (header_events t ++
                    loop_events t (range (t_phnum t)) (d, false)) w)
  | None =>
      Raised StructError (log (header_events t ++
                               loop_events t (range (t_phnum t)) (d, false)) w)
  end.
Proof.
  intros H. pose proof (patch_segments_eq d w) as E. rewrite H in E.
  rewrite E, for_each_eq.
  destruct (loop_result t (range (t_phnum t)) (d, false)); by rewrite log_log.
Qed.

(** When the in-memory part raises, it has only added events, none of them
    a write of the file. *)
Lemma patch_segments_raised d w x w' :
  patch_segments d w = Raised x w' → ∃ evs, w' = log evs w ∧ EvOpenWrite ∉ evs.
Proof.
  pose proof (patch_segments_eq d w) as E.
  destruct (header d) as [t|] eqn:Hh.
  - rewrite (patch_segments_closed d w t Hh).
    destruct (loop_result t (range (t_phnum t)) (d, false)); [done|].
    intros [= _ <-].
    exists (header_events t ++ loop_events t (range (t_phnum t)) (d, false)).
    split; [done|]. rewrite not_elem_of_app. split.
    + apply header_events_no_write.
    + apply loop_events_no_write.
  - destruct E as (x0 & evs & -> & Hno). intros [= _ <-]. eauto.
Qed.

(** The effect of the in-memory part on the table the header describes. *)
Lemma patch_segments_spec d w t d' m w' :
  header d = Some t →
  patch_segments d w = Done (d', m) w' →
  len d' = len d ∧
  (∀ k, (∀ i, i < t_phnum t → needs_fix t d i = true → ¬ in_align_field t i k) →
        byte_at d' k = byte_at d k) ∧
  (∀ i, i < t_phnum t →
     ∃ ty, p_type t d i = Some ty ∧ p_type t d' i = Some ty ∧
       (ty = 1 → ∃ a, p_align t d i = Some a ∧
          align_bytes t d' i =
            (if a <? 0x4000 then packed_16kb t else align_bytes t d i) ∧
          p_align t d' i = Some (if a <? 0x4000 then 0x4000 else a))) ∧
  m = existsb (needs_fix t d) (range (t_phnum t)) ∧
  w' = log (header_events t ++
            flat_map (segment_events t d) (range (t_phnum t))) w.
Proof.
  intros Hh Hrun. pose proof (patch_segments_eq d w) as E. rewrite Hh in E.
  rewrite E, range_indices in Hrun.
  apply loop_spec in Hrun as (Hlen & Hout & Hent & Hm & Hw).
  rewrite <- range_indices in *.
  split_and!; [done| | |done|by rewrite Hw, log_log].
  - intros k Hk. apply Hout. intros i Hi. apply Hk. by apply elem_of_range.
  - intros i Hi. destruct (Hent i) as (ty & Hty & Hal); [by apply elem_of_range|].
    exists ty. split_and!; [done| |].
    + rewrite <- Hty. unfold p_type. apply read_uint_agree.
      intros k Hk. apply Hout. intros i' _ _ Hin. simpl in Hk. table_arith.
    + intros Hone. destruct (Hal Hone) as (a & Ha & Hbytes).
      exists a. split_and!; [done|done|].
      destruct (a <? 0x4000).
      * by apply p_align_packed.
      * rewrite <- Ha. by apply p_align_of_bytes.
Qed.

(** Nothing flagged: the buffer is the one that was read. *)
Lemma patch_segments_unmodified d w t d' w' :
  header d = Some t →
  patch_segments d w = Done (d', false) w' → d' = d.
Proof.
  intros Hh Hrun.
  apply (patch_segments_spec d w t) in Hrun as (_ & Hout & _ & Hm & _); [|done].
  symmetry in Hm. rewrite existsb_false_in in Hm.
  apply bytes_eq. intros k. apply Hout. intros i Hi Hfix.
  rewrite Hm in Hfix; [done|]. by apply elem_of_range.
Qed.

(** The header is read from the bytes before the end of the ELF header. *)
Lemma header_agree d d' t :
  header d = Some t → agree_on 0 (ehsize (t_is64 t)) d d' → header d' = Some t.
Proof.
  unfold header. intros Hh Hag.
  destruct (byte_at d 4) as [c|] eqn:H4; [|done].
  destruct (byte_at d 5) as [b|] eqn:H5; [|done].
  simpl in Hh.
  set (is64 := Byte.to_N c =? 2) in *.
  set (e := if Byte.to_N b =? 1 then LittleEndian else BigEndian) in *.
  destruct (if is64 then read_uint e FmtQ d 32 else read_uint e FmtI d 28)
    as [phoff|] eqn:Hoff; [|done].
  destruct (if is64 then read_uint e FmtH d 56 else read_uint e FmtH d 44)
    as [phnum|] eqn:Hnum; [|done].
  simpl in Hh. injection Hh as <-. simpl in Hag.
  assert (4 < ehsize is64 ∧ 5 < ehsize is64) as [??] by (destruct is64; simpl; lia).
  rewrite <- (Hag 4), H4 by lia. rewrite <- (Hag 5), H5 by lia. simpl.
  fold is64 e.
  assert ((if is64 then read_uint e FmtQ d' 32 else read_uint e FmtI d' 28) = Some phoff) as ->.
  { rewrite <- Hoff. destruct is64; symmetry; apply read_uint_agree;
      intros k Hk; apply Hag; simpl in *; lia. }
  assert ((if is64 then read_uint e FmtH d' 56 else read_uint e FmtH d' 44) = Some phnum) as ->.
  { rewrite <- Hnum. destruct is64; symmetry; apply read_uint_agree;
      intros k Hk; apply Hag; simpl in *; lia. }
  done.
Qed.

(** On a well-formed image the in-memory part ends normally. *)
Lemma well_formed_patched d w :
  well_formed d →
  ∃ t d' m w', header d = Some t ∧ patch_segments d w = Done (d', m) w'.
Proof.
  intros (_ & t & Hh & _ & _ & Hend). exists t.
  rewrite (patch_segments_closed d w t Hh).
  destruct (loop_total t (N.to_nat (t_phnum t)) 0 d false) as [[d' m] Hres].
  { intros i Hi. apply elem_of_indices_from in Hi. table_arith. }
  rewrite range_indices, Hres. eauto.
Qed.

(** ... and leaves a well-formed image with the same header. *)
Lemma well_formed_kept d w t d' m w' :
  well_formed d → header d = Some t →
  patch_segments d w = Done (d', m) w' →
  header d' = Some t ∧ well_formed d'.
Proof.
  intros (Hmagic & t0 & Hh0 & Hlen & Hoff & Hend) Hh Hrun.
  assert (t0 = t) as -> by congruence.
  apply (patch_segments_spec d w t) in Hrun as (Hlen' & Hout & _); [|done].
  assert (agree_on 0 (ehsize (t_is64 t)) d d') as Hag.
  { intros k Hk. symmetry. apply Hout. intros i _ _ Hin. table_arith. }
  assert (header d' = Some t) as Hh' by by apply (header_agree d).
  split; [done|]. split.
  - rewrite <- Hmagic. symmetry. apply slice_agree.
    intros k Hk. apply Hag. destruct (t_is64 t); simpl; lia.
  - exists t. rewrite Hlen'. done.
Qed.

(* ------------------------------------------------------------------------- *)
(** ** The script as a whole *)

Lemma align_missing w :
  file w = None →
  align_elf_to_16kb w = Done false (log [EvPrint MsgFileNotFound] w).
Proof.
  destruct w as [f evs]. simpl. intros ->. reflexivity.
Qed.

Lemma align_not_elf w d :
  file w = Some d → slice d 0 4 ≠ ELFMAG →
  align_elf_to_16kb w =
  Done false (log [EvOpenRead; EvGetSlice 0 4; EvPrint MsgNotElf] w).
Proof.
  destruct w as [f evs]. simpl. intros -> Hne. unfold align_elf_to_16kb.
  cbv [mbind M_bind path_exists read_file getslice print emit mret M_ret log].
  simpl. rewrite bool_decide_false by done. simpl. by rewrite <- !app_assoc.
Qed.

Lemma align_elf w d :
  file w = Some d → slice d 0 4 = ELFMAG →
  align_elf_to_16kb w =
  match patch_segments d (log [EvOpenRead; EvGetSlice 0 4] w) with
  | Done (d', m) w1 =>
      if m
      then Done true (World (Some d') (events w1 ++ [EvOpenWrite; EvPrint MsgAligned]))
      else Done true (log [EvPrint MsgAlreadyAligned] w1)
  | Raised x w1 => Raised x w1
  end.
Proof.
  destruct w as [f evs]. simpl. intros -> Heq. unfold align_elf_to_16kb.
  cbv [mbind M_bind path_exists read_file getslice emit mret M_ret].
  simpl. rewrite bool_decide_true by done. simpl.
  unfold log. simpl. rewrite <- !app_assoc. simpl.
  destruct (patch_segments d _) as [[d' m] w1|x w1]; [|done].
  destruct m; [|done].
  cbv [write_file print emit]. simpl. by rewrite <- !app_assoc.
Qed.

(** The ways the script can return on an existing file. *)
Lemma align_done w d b w' :
  file w = Some d →
  align_elf_to_16kb w = Done b w' →
  (b = false ∧ slice d 0 4 ≠ ELFMAG ∧
   w' = log [EvOpenRead; EvGetSlice 0 4; EvPrint MsgNotElf] w) ∨
  (b = true ∧ slice d 0 4 = ELFMAG ∧
   ∃ t d' m w1,
     header d = Some t ∧
     patch_segments d (log [EvOpenRead; EvGetSlice 0 4] w) = Done (d', m) w1 ∧
     file w' = Some d' ∧
     events w' = events w1 ++
       (if m then [EvOpenWrite; EvPrint MsgAligned] else [EvPrint MsgAlreadyAligned])).
Proof.
  intros Hf Hrun. destruct (decide (slice d 0 4 = ELFMAG)) as [Heq|Hne].
  - right. rewrite (align_elf w d Hf Heq) in Hrun.
    destruct (patch_segments d _) as [[d' m] w1|x w1] eqn:Hp; [|done].
    destruct (header d) as [t|] eqn:Hh.
    2:{ pose proof (patch_segments_eq d (log [EvOpenRead; EvGetSlice 0 4] w)) as E.
        rewrite Hh in E. destruct E as (? & ? & E & _). congruence. }
    destruct m.
    + injection Hrun as <- <-. split_and!; [done..|]. by exists t, d', true, w1.
    + injection Hrun as <- <-. split_and!; [done..|].
      exists t, d', false, w1. split_and!; [done..| |done].
      rewrite (patch_segments_unmodified _ _ _ _ _ Hh Hp). simpl.
      apply patch_segments_spec with (t := t) in Hp as (_ & _ & _ & _ & ->); done.
  - left. rewrite (align_not_elf w d Hf Hne) in Hrun. by injection Hrun as <- <-.
Qed.

Lemma needs_fix_true t d i :
  needs_fix t d i = true ↔
  p_type t d i = Some 1 ∧ ∃ a, p_align t d i = Some a ∧ a < 0x4000.
Proof.
  unfold needs_fix.
  destruct (p_type t d i) as [ty|]; [|split; [done|by intros [? _]]].
  destruct (p_align t d i) as [a|]; [|split; [done|by intros (_ & ? & ? & _)]].
  rewrite andb_true_iff, N.eqb_eq, N.ltb_lt. split.
  - intros [-> Hlt]. eauto.
  - intros ([= ->] & a' & [= ->] & Hlt). done.
Qed.

Lemma existsb_true_in {A} (f : A → bool) (l : list A) x :
  x ∈ l → f x = true → existsb f l = true.
Proof.
  induction 1 as [|x y l Hx IH]; simpl; intros Hf.
  - by rewrite Hf.
  - rewrite IH by done. by destruct (f y).
Qed.

Lemma read_uint_value e f d off :
  off + calcsize f ≤ len d →
  read_uint e f d off = Some (int_from_bytes e (slice d off (off + calcsize f))).
Proof.
  intros H. unfold read_uint. rewrite len_slice.
  destruct (N.eqb_spec (N.min (off + calcsize f - off) (len d - off)) (calcsize f));
    [done|lia].
Qed.

Lemma patch_segments_done_log d w st w' :
  patch_segments d w = Done st w' → ∃ evs, w' = log evs w ∧ EvOpenWrite ∉ evs.
Proof.
  pose proof (patch_segments_eq d w) as E.
  destruct (header d) as [t|] eqn:Hh.
  - rewrite (patch_segments_closed d w t Hh).
    destruct (loop_result t (range (t_phnum t)) (d, false)); [|done].
    intros [= _ <-].
    exists (header_events t ++ loop_events t (range (t_phnum t)) (d, false)).
    split; [done|]. rewrite not_elem_of_app. split.
    + apply header_events_no_write.
    + apply loop_events_no_write.
  - destruct E as (x0 & evs & -> & Hno). done.
Qed.

Lemma read_uint_Some_inv e f d off v :
  read_uint e f d off = Some v →
  len (slice d off (off + calcsize f)) = calcsize f ∧
  v = int_from_bytes e (slice d off (off + calcsize f)).
Proof.
  unfold read_uint.
  destruct (N.eqb_spec (len (slice d off (off + calcsize f))) (calcsize f));
    [|done].
  by intros [= <-].
Qed.

Lemma read_uint_None e f d off :
  read_uint e f d off = None → len d < off + calcsize f.
Proof.
  intros Hnone. destruct (N.lt_ge_cases (len d) (off + calcsize f)) as [|Hge]; [done|].
  destruct (read_uint_in_bounds e f d off Hge) as [v Hv]. congruence.
Qed.

(** The table the header gives, in terms of the two identification bytes. *)
Lemma header_ident d c b t :
  byte_at d 4 = Some c → byte_at d 5 = Some b → header d = Some t →
  t_is64 t = (Byte.to_N c =? 2) ∧
  t_endian t = (if Byte.to_N b =? 1 then LittleEndian else BigEndian) ∧
  read_uint (t_endian t) (if t_is64 t then FmtQ else FmtI) d
    (if t_is64 t then 0x20 else 0x1c) = Some (t_phoff t) ∧
  read_uint (t_endian t) FmtH d (if t_is64 t then 0x38 else 0x2c) = Some (t_phnum t).
Proof.
  intros H4 H5. unfold header. rewrite H4, H5. simpl.
  set (e := if Byte.to_N b =? 1 then LittleEndian else BigEndian).
  destruct (Byte.to_N c =? 2).
  - destruct (read_uint e FmtQ d 32) as [phoff|] eqn:Hoff; [|done].
    destruct (read_uint e FmtH d 56) as [phnum|] eqn:Hnum; [|done].
    simpl. by intros [= <-].
  - destruct (read_uint e FmtI d 28) as [phoff|] eqn:Hoff; [|done].
    destruct (read_uint e FmtH d 44) as [phnum|] eqn:Hnum; [|done].
    simpl. by intros [= <-].
Qed.

(** A completed pass had a readable header. *)
Lemma patch_segments_done_header d w st w' :
  patch_segments d w = Done st w' → ∃ t, header d = Some t.
Proof.
  intros Hp. pose proof (patch_segments_eq d w) as E.
  destruct (header d) as [t|]; [eauto|].
  destruct E as (? & ? & E & _). congruence.
Qed.

(** With both identification bytes present and the fixed-offset fields within
    the image, the header can be read. *)
Lemma header_in_bounds d c b :
  byte_at d 4 = Some c → byte_at d 5 = Some b →
  (if Byte.to_N c =? 2 then 0x3a else 0x2e) ≤ len d →
  is_Some (header d).
Proof.
  intros H4 H5 Hlen. unfold header. rewrite H4, H5. simpl.
  set (e := if Byte.to_N b =? 1 then LittleEndian else BigEndian).
  destruct (Byte.to_N c =? 2).
  - destruct (read_uint_in_bounds e FmtQ d 32) as [phoff ->]; [simpl; lia|].
    destruct (read_uint_in_bounds e FmtH d 56) as [phnum ->]; [simpl; lia|].
    by eexists.
  - destruct (read_uint_in_bounds e FmtI d 28) as [phoff ->]; [simpl; lia|].
    destruct (read_uint_in_bounds e FmtH d 44) as [phnum ->]; [simpl; lia|].
    by eexists.
Qed.

(** A table that lies within the image: the pass completes. *)
Lemma patch_segments_total d w t :
  header d = Some t →
  t_phoff t + t_phnum t * phentsize (t_is64 t) ≤ len d →
  ∃ d' m w', patch_segments d w = Done (d', m) w'.
Proof.
  intros Hh Hlen. rewrite (patch_segments_closed _ _ t Hh), range_indices.
  destruct (loop_total t (N.to_nat (t_phnum t)) 0 d false) as [[d' m] ->]; [|eauto].
  intros i Hi. apply elem_of_indices_from in Hi. table_arith.
Qed.

(* ------------------------------------------------------------------------- *)
(** ** The specification *)

(** C1.  For every program header entry of type 1: the iteration that visits
    it overwrites the alignment field in place with [0x4000], packed in the
    entry's word width and the file's byte order, and sets [modified] when
    the value it read is below [0x4000], and passes the buffer and the flag
    on as they are otherwise.  After a completed pass the field of such an
    entry holds exactly the packed [0x4000] and [modified] is set if the value
    was below [0x4000], and holds the bytes it held if the value was [0x4000]
    or more. *)
Theorem load_alignment_raised_to_16kb t i :
  (∀ d0 m0 w0 a,
     p_type t d0 i = Some 1 → p_align t d0 i = Some a →
     segment t i (d0, m0) w0 =
     Done (if a <? 0x4000
           then (list_inserts (N.to_nat (align_offset t i))
                   (int_to_bytes (t_endian t) (align_fmt (t_is64 t)) 0x4000) d0,
                 true)
           else (d0, m0))
          (log (segment_events t d0 i) w0)) ∧
  (∀ d w d' m w',
     header d = Some t →
     patch_segments d w = Done (d', m) w' →
     i < t_phnum t → p_type t d i = Some 1 →
     ∃ a, p_align t d i = Some a ∧
       (a < 0x4000 →
          align_bytes t d' i =
            int_to_bytes (t_endian t) (align_fmt (t_is64 t)) 0x4000 ∧
          p_align t d' i = Some 0x4000 ∧ m = true) ∧
       (0x4000 ≤ a → align_bytes t d' i = align_bytes t d i)).
Proof.
  split.
  - intros d0 m0 w0 a Hty Ha. rewrite segment_eq.
    unfold segment_result. rewrite Hty, Ha. simpl.
    by destruct (a <? 0x4000).
  - intros d w d' m w' Hh Hrun Hi Hty.
    apply (patch_segments_spec d w t) in Hrun as (_ & _ & Hent & Hm & _); [|done].
    destruct (Hent i Hi) as (ty & Hty' & _ & Hal).
    assert (ty = 1) as -> by congruence.
    destruct Hal as (a & Ha & Hbytes & Hpost); [done|].
    exists a. split; [done|]. split.
    + intros Hlt. apply N.ltb_lt in Hlt as Hb. rewrite Hb in Hbytes, Hpost.
      split_and!; [done|done|]. rewrite Hm.
      apply (existsb_true_in _ _ i); [by apply elem_of_range|].
      apply needs_fix_true. eauto.
    + intros Hge. apply N.ltb_ge in Hge. by rewrite Hge in Hbytes.
Qed.

(** C2.  When the script returns success, the file has the length it had, and
    every byte that is not in the alignment field of a type-1 program header
    entry is the byte that was there. *)
Theorem bytes_outside_load_alignment_kept d w' :
  run d = Done true w' →
  ∃ t d', header d = Some t ∧ file w' = Some d' ∧
    len d' = len d ∧
    ∀ k, (∀ i, i < t_phnum t → p_type t d i = Some 1 → ¬ in_align_field t i k) →
         byte_at d' k = byte_at d k.
Proof.
  intros Hrun. apply (align_done _ d) in Hrun as [(? & _)|(_ & _ & Hok)]; [done| |done].
  destruct Hok as (t & d' & m & w1 & Hh & Hp & Hfile & _).
  exists t, d'. split_and!; [done|done|..];
    apply (patch_segments_spec _ _ t) in Hp as (Hlen & Hout & _); try done.
  intros k Hk. apply Hout. intros i Hi Hfix.
  apply needs_fix_true in Hfix as [Hty _]. by apply Hk.
Qed.

(** C3.  On a well-formed image the script returns success, the image it
    leaves has the same header, and every type-1 entry of it has an alignment
    of at least [0x4000] that is not below the alignment it had. *)
Theorem load_alignment_monotonic d :
  well_formed d →
  ∃ t w' d', header d = Some t ∧ run d = Done true w' ∧ file w' = Some d' ∧
    header d' = Some t ∧
    ∀ i, i < t_phnum t → p_type t d' i = Some 1 →
      ∃ a a', p_align t d i = Some a ∧ p_align t d' i = Some a' ∧
              0x4000 ≤ a' ∧ a ≤ a'.
Proof.
  intros Hwf.
  destruct (well_formed_patched d (log [EvOpenRead; EvGetSlice 0 4] (World (Some d) [])) Hwf)
    as (t & d' & m & w1 & Hh & Hp).
  pose proof (well_formed_kept _ _ _ _ _ _ Hwf Hh Hp) as [Hh' _].
  pose proof (align_elf (World (Some d) []) d eq_refl (proj1 Hwf)) as Hrun.
  rewrite Hp in Hrun. fold (run d) in Hrun.
  assert (∃ w', run d = Done true w' ∧ file w' = Some d') as (w' & Hrun' & Hfile).
  { destruct m; [by eexists|]. eexists. split; [done|].
    rewrite (patch_segments_unmodified _ _ _ _ _ Hh Hp). simpl.
    apply patch_segments_spec with (t := t) in Hp as (_ & _ & _ & _ & ->); done. }
  exists t, w', d'. split_and!; [done..|].
  intros i Hi Hty.
  apply (patch_segments_spec _ _ t) in Hp as (_ & _ & Hent & _); [|done].
  destruct (Hent i Hi) as (ty & _ & Hty' & Hal).
  assert (ty = 1) as -> by congruence.
  destruct Hal as (a & Ha & _ & Hpost); [done|].
  exists a, (if a <? 0x4000 then 0x4000 else a). split_and!; [done|done|..];
    destruct (N.ltb_spec a 0x4000); lia.
Qed.

(** C4.  On a well-formed image the script succeeds, and a second pass over
    the image it leaves reports [modified] false and returns that same image;
    run again on the file, the script succeeds without writing it. *)
Theorem second_pass_changes_nothing d :
  well_formed d →
  ∃ w1 d', run d = Done true w1 ∧ file w1 = Some d' ∧
    (∀ w, ∃ w2, patch_segments d' w = Done (d', false) w2) ∧
    ∃ evs, align_elf_to_16kb w1 = Done true (log evs w1) ∧ EvOpenWrite ∉ evs.
Proof.
  intros Hwf.
  destruct (well_formed_patched d (log [EvOpenRead; EvGetSlice 0 4] (World (Some d) [])) Hwf)
    as (t & d' & m & w1 & Hh & Hp).
  pose proof (well_formed_kept _ _ _ _ _ _ Hwf Hh Hp) as [Hh' Hwf'].
  pose proof (align_elf (World (Some d) []) d eq_refl (proj1 Hwf)) as Hrun.
  rewrite Hp in Hrun. fold (run d) in Hrun.
  assert (∃ w', run d = Done true w' ∧ file w' = Some d') as (w' & Hrun' & Hfile).
  { destruct m; [by eexists|]. eexists. split; [done|].
    rewrite (patch_segments_unmodified _ _ _ _ _ Hh Hp). simpl.
    apply patch_segments_spec with (t := t) in Hp as (_ & _ & _ & _ & ->); done. }
  (* the second pass finds nothing to fix *)
  assert (∀ w, ∃ w2, patch_segments d' w = Done (d', false) w2) as Hsecond.
  { intros w.
    destruct (well_formed_patched d' w Hwf') as (t' & d'' & m'' & w2 & Hh'' & Hp').
    assert (t' = t) as -> by congruence.
    assert (m'' = false) as ->.
    { pose proof Hp' as Hspec.
      apply (patch_segments_spec _ _ t) in Hspec as (_ & _ & _ & -> & _); [|done].
      apply existsb_false_in. intros i Hi. apply elem_of_range in Hi.
      apply (patch_segments_spec _ _ t) in Hp as (_ & _ & Hent & _); [|done].
      destruct (Hent i Hi) as (ty & _ & Hty' & Hal).
      destruct (needs_fix t d' i) eqn:Hfix; [|done].
      apply needs_fix_true in Hfix as (Hty & a' & Ha' & Hlt).
      assert (ty = 1) as -> by congruence.
      destruct Hal as (a & _ & _ & Hpost); [done|].
      rewrite Hpost in Ha'. injection Ha' as <-.
      destruct (N.ltb_spec a 0x4000); lia. }
    exists w2. by rewrite <- (patch_segments_unmodified _ _ _ _ _ Hh' Hp') at 2. }
  exists w', d'. split_and!; [done..|].
  rewrite (align_elf w' d' Hfile (proj1 Hwf')).
  destruct (Hsecond (log [EvOpenRead; EvGetSlice 0 4] w')) as (w2 & Hp2).
  rewrite Hp2. apply patch_segments_done_log in Hp2 as (evs & -> & Hno).
  exists ([EvOpenRead; EvGetSlice 0 4] ++ evs ++ [EvPrint MsgAlreadyAligned]).
  split; [by rewrite !log_log|].
  rewrite !not_elem_of_app. split_and!; [not_in_list|done|not_in_list].
Qed.

(** C5.  On an existing file the script returns failure exactly when the first
    four bytes are not the ELF magic; it then has read the file, looked at
    those four bytes and printed the error, the file is not opened for writing
    and holds what it held. *)
Theorem not_elf_rejected d :
  ((∃ w', run d = Done false w') ↔ slice d 0 4 ≠ ELFMAG) ∧
  (slice d 0 4 ≠ ELFMAG →
   run d = Done false
     (World (Some d) [EvOpenRead; EvGetSlice 0 4; EvPrint MsgNotElf])).
Proof.
  split.
  - split.
    + intros [w' Hrun]. by apply (align_done _ d) in Hrun as [(_ & ? & _)|(? & _)].
    + intros Hne. eexists. by apply (align_not_elf (World (Some d) []) d).
  - intros Hne. by apply (align_not_elf (World (Some d) []) d).
Qed.

(** C6.  With the identification bytes present and the header fields within
    the image, the script reads [e_phoff] and [e_phnum] at [0x20] (8 bytes)
    and [0x38] (2 bytes) when byte 4 is 2, at [0x1c] (4 bytes) and [0x2c]
    (2 bytes) otherwise, in the byte order byte 5 selects, and then runs the
    loop over [range(e_phnum)] with the entry size 56, respectively 32. *)
Theorem program_header_table_located d w c b :
  byte_at d 4 = Some c → byte_at d 5 = Some b →
  let e := if Byte.to_N b =? 1 then LittleEndian else BigEndian in
  (Byte.to_N c = 2 → 0x3a ≤ len d →
   let phoff := int_from_bytes e (slice d 0x20 0x28) in
   let phnum := int_from_bytes e (slice d 0x38 0x3a) in
   len (slice d 0x20 0x28) = 8 ∧ len (slice d 0x38 0x3a) = 2 ∧
   patch_segments d w =
   for_each (range phnum) (elf64_segment e phoff 56) (d, false)
     (log [EvGetItem 4; EvGetItem 5; EvGetSlice 0x20 0x28; EvGetSlice 0x38 0x3a;
           EvPrint (MsgElf64 phnum phoff)] w)) ∧
  (Byte.to_N c ≠ 2 → 0x2e ≤ len d →
   let phoff := int_from_bytes e (slice d 0x1c 0x20) in
   let phnum := int_from_bytes e (slice d 0x2c 0x2e) in
   len (slice d 0x1c 0x20) = 4 ∧ len (slice d 0x2c 0x2e) = 2 ∧
   patch_segments d w =
   for_each (range phnum) (elf32_segment e phoff 32) (d, false)
     (log [EvGetItem 4; EvGetItem 5; EvGetSlice 0x1c 0x20; EvGetSlice 0x2c 0x2e;
           EvPrint (MsgElf32 phnum phoff)] w)).
Proof.
  intros H4 H5 e. pose proof (patch_segments_eq d w) as E.
  unfold header in E. rewrite H4, H5 in E. simpl in E. fold e in E.
  split.
  - intros Hc Hlen phoff phnum.
    assert (len (slice d 0x20 0x28) = 8) as L1 by (rewrite len_slice; lia).
    assert (len (slice d 0x38 0x3a) = 2) as L2 by (rewrite len_slice; lia).
    split_and!; [done..|].
    apply N.eqb_eq in Hc. rewrite Hc in E.
    rewrite (read_uint_value e FmtQ d 0x20), (read_uint_value e FmtH d 0x38) in E
      by (simpl; lia).
    exact E.
  - intros Hc Hlen phoff phnum.
    assert (len (slice d 0x1c 0x20) = 4) as L1 by (rewrite len_slice; lia).
    assert (len (slice d 0x2c 0x2e) = 2) as L2 by (rewrite len_slice; lia).
    split_and!; [done..|].
    apply N.eqb_neq in Hc. rewrite Hc in E.
    rewrite (read_uint_value e FmtI d 0x1c), (read_uint_value e FmtH d 0x2c) in E
      by (simpl; lia).
    exact E.
Qed.

(** C7.  A completed pass has logged, after the header, the iterations for
    the indices 0, 1, ..., [e_phnum - 1] in this order; iteration [i] starts
    by reading the 4-byte type field at [e_phoff + i * phentsize].  For an
    entry whose type is not 1 that read is the whole iteration: the alignment
    field is neither read nor written, and the buffer and [modified] are
    passed on as they were. *)
Theorem entries_visited_in_table_order d w t d' m w' :
  header d = Some t →
  patch_segments d w = Done (d', m) w' →
  events w' = events w ++ header_events t ++
              flat_map (segment_events t d) (range (t_phnum t)) ∧
  length (range (t_phnum t)) = N.to_nat (t_phnum t) ∧
  ∀ i, i < t_phnum t →
    let ph_offset := t_phoff t + i * phentsize (t_is64 t) in
    range (t_phnum t) !! N.to_nat i = Some i ∧
    hd_error (segment_events t d i) = Some (EvGetSlice ph_offset (ph_offset + 4)) ∧
    (p_type t d i ≠ Some 1 →
       segment_events t d i = [EvGetSlice ph_offset (ph_offset + 4)]) ∧
    (∀ d0 m0 w0 ty, p_type t d0 i = Some ty → ty ≠ 1 →
       segment t i (d0, m0) w0 =
       Done (d0, m0) (log [EvGetSlice ph_offset (ph_offset + 4)] w0)).
Proof.
  intros Hh Hrun.
  apply (patch_segments_spec d w t) in Hrun as (_ & _ & Hent & _ & ->); [|done].
  split_and!; [done| |].
  - unfold range. by rewrite length_fmap, length_seq.
  - intros i Hi ph. split_and!.
    + unfold range. rewrite list_lookup_fmap, lookup_seq_lt by lia. simpl.
      f_equal. lia.
    + done.
    + intros Hne. destruct (Hent i Hi) as (ty & Hty & _).
      unfold segment_events. rewrite Hty.
      destruct (N.eqb_spec ty 1) as [->|_]; done.
    + intros d0 m0 w0 ty Hty Hne. rewrite segment_eq.
      unfold segment_result, segment_events. rewrite Hty.
      by destruct (N.eqb_spec ty 1).
Qed.

(** C8.  Once the pass over the table has ended with the buffer [d'] and the
    flag [m], the script returns success; it opens the file for writing if
    and only if [m] is true, and the file then holds [d'], otherwise the file
    holds what it held. *)
Theorem written_back_iff_modified d d' m w1 :
  slice d 0 4 = ELFMAG →
  patch_segments d (World (Some d) [EvOpenRead; EvGetSlice 0 4]) = Done (d', m) w1 →
  ∃ w', run d = Done true w' ∧
    (EvOpenWrite ∈ events w' ↔ m = true) ∧
    file w' = Some (if m then d' else d) ∧
    events w' = events w1 ++
      (if m then [EvOpenWrite; EvPrint MsgAligned] else [EvPrint MsgAlreadyAligned]).
Proof.
  intros Hmagic Hp.
  pose proof (align_elf (World (Some d) []) d eq_refl Hmagic) as Hrun.
  change (log [EvOpenRead; EvGetSlice 0 4] (World (Some d) []))
    with (World (Some d) [EvOpenRead; EvGetSlice 0 4]) in Hrun.
  rewrite Hp in Hrun. fold (run d) in Hrun.
  apply patch_segments_done_log in Hp as (evs & -> & Hno).
  destruct m; eexists; (split; [exact Hrun|]); simpl; split_and!; try done.
  - split; [done|]. intros _.
    rewrite !elem_of_cons, elem_of_app, elem_of_cons. auto.
  - split; [|done].
    rewrite !elem_of_cons, elem_of_app, elem_of_cons, elem_of_nil.
    intros [H|[H|[H|[H|H]]]]; done.
Qed.

(** C9.  Bytes 4 and 5 are not validated: an image with the magic never gets
    the failure result, whatever they hold.  With any class byte other than 2
    a completed pass has read [e_phoff] from the 4 bytes at [0x1c] and
    [e_phnum] from the 2 bytes at [0x2c], has visited the entries at
    [e_phoff + i * 32], reading the 4-byte type at the start of each and, for
    type 1, the 4-byte alignment at [+ 0x1c], and has written that 4-byte field
    where the alignment was below [0x4000]; the pass does complete when these
    fields lie within the image.  With any byte-order byte other than 1 every
    field is decoded with its first byte most significant, and the field
    written is [0x4000] with its first byte most significant. *)
Theorem identification_bytes_not_validated d w c b :
  byte_at d 4 = Some c → byte_at d 5 = Some b →
  (slice d 0 4 = ELFMAG → ∀ w', run d ≠ Done false w') ∧
  (Byte.to_N c ≠ 2 →
   let e := if Byte.to_N b =? 1 then LittleEndian else BigEndian in
   let phoff := int_from_bytes e (slice d 0x1c 0x20) in
   let phnum := int_from_bytes e (slice d 0x2c 0x2e) in
   (0x2e ≤ len d → phoff + phnum * 32 ≤ len d →
    ∃ d' m w', patch_segments d w = Done (d', m) w') ∧
   ∀ d' m w', patch_segments d w = Done (d', m) w' →
     ∃ entry : N → list event,
       events w' = events w ++
         [EvGetItem 4; EvGetItem 5; EvGetSlice 0x1c 0x20; EvGetSlice 0x2c 0x2e;
          EvPrint (MsgElf32 phnum phoff)] ++
         flat_map entry (range phnum) ∧
       ∀ i, i < phnum →
         let off := phoff + i * 32 in
         let ty := int_from_bytes e (slice d off (off + 4)) in
         let a := int_from_bytes e (slice d (off + 0x1c) (off + 0x1c + 4)) in
         (ty ≠ 1 → entry i = [EvGetSlice off (off + 4)]) ∧
         (ty = 1 →
            entry i =
              [EvGetSlice off (off + 4);
               EvGetSlice (off + 0x1c) (off + 0x1c + 4)] ++
              (if a <? 0x4000
               then [EvPrint (MsgChanging i a);
                     EvPackInto FmtI (off + 0x1c) 0x4000]
               else [EvPrint (MsgAlready i a)]) ∧
            slice d' (off + 0x1c) (off + 0x1c + 4) =
              if a <? 0x4000 then int_to_bytes e FmtI 0x4000
              else slice d (off + 0x1c) (off + 0x1c + 4))) ∧
  (Byte.to_N b ≠ 1 →
   ((if Byte.to_N c =? 2 then 0x3a else 0x2e) ≤ len d →
    ∃ t, header d = Some t ∧
      (t_phoff t + t_phnum t * phentsize (t_is64 t) ≤ len d →
       ∃ d' m w', patch_segments d w = Done (d', m) w')) ∧
   ∀ d' m w', patch_segments d w = Done (d', m) w' →
     ∃ t, header d = Some t ∧
       t_is64 t = (Byte.to_N c =? 2) ∧
       t_phoff t =
         le_decode (rev (if t_is64 t then slice d 0x20 0x28 else slice d 0x1c 0x20)) ∧
       t_phnum t =
         le_decode (rev (if t_is64 t then slice d 0x38 0x3a else slice d 0x2c 0x2e)) ∧
       EvPrint (if t_is64 t then MsgElf64 (t_phnum t) (t_phoff t)
                else MsgElf32 (t_phnum t) (t_phoff t)) ∈ events w' ∧
       ∀ i, i < t_phnum t →
         let ty := le_decode (rev (slice d (ph_offset t i) (ph_offset t i + 4))) in
         let a := le_decode (rev (align_bytes t d i)) in
         (ty ≠ 1 → align_bytes t d' i = align_bytes t d i) ∧
         (ty = 1 →
            align_bytes t d' i =
              if a <? 0x4000
              then (if t_is64 t
                    then [x00; x00; x00; x00; x00; x00; x40; x00]
                    else [x00; x00; x40; x00])
              else align_bytes t d i)).
Proof.
  intros H4 H5. split_and!.
  - intros Hmagic w' Hrun.
    by apply (align_done _ d) in Hrun as [(_ & ? & _)|(? & _)].
  - intros Hc e phoff phnum. apply N.eqb_neq in Hc. split.
    { intros Hlen Htab.
      destruct (header_in_bounds d c b H4 H5) as [t Hh]; [by rewrite Hc|].
      destruct (header_ident _ _ _ _ H4 H5 Hh) as (H64 & He & Hoff & Hnum).
      rewrite Hc in H64. rewrite H64, He in Hoff, Hnum.
      apply read_uint_Some_inv in Hoff as [_ Hoff].
      apply read_uint_Some_inv in Hnum as [_ Hnum].
      apply (patch_segments_total d w t Hh).
      rewrite H64, Hoff, Hnum. exact Htab. }
    intros d' m w' Hp.
    destruct (patch_segments_done_header _ _ _ _ Hp) as [t Hh].
    destruct (header_ident _ _ _ _ H4 H5 Hh) as (H64 & He & Hoff & Hnum).
    rewrite Hc in H64.
    destruct t as [is64 e' phoff' phnum']. simpl in H64, He, Hoff, Hnum.
    subst is64 e'.
    fold e in Hoff, Hnum, Hh.
    apply read_uint_Some_inv in Hoff as [_ Hoff].
    apply read_uint_Some_inv in Hnum as [_ Hnum].
    simpl in Hoff, Hnum. fold phoff in Hoff. fold phnum in Hnum. subst phoff' phnum'.
    set (t := Table false e phoff phnum) in *.
    apply (patch_segments_spec _ _ t) in Hp as (_ & _ & Hent & _ & ->); [|done].
    exists (segment_events t d). split; [done|].
    intros i Hi off ty a. destruct (Hent i Hi) as (ty' & Hty & _ & Hal).
    change (p_type t d i) with (read_uint e FmtI d off) in Hty.
    apply read_uint_Some_inv in Hty as Hty2. destruct Hty2 as [_ Hty2].
    change (int_from_bytes e (slice d off (off + calcsize FmtI))) with ty in Hty2.
    subst ty'.
    unfold segment_events.
    change (p_type t d i) with (read_uint e FmtI d off). rewrite Hty.
    change (ph_offset t i) with off.
    change (align_offset t i) with (off + 0x1c).
    change (align_end t i) with (off + 0x1c + 4).
    split.
    + intros Hne. by destruct (N.eqb_spec ty 1).
    + intros Hone. destruct (Hal Hone) as (a' & Ha & Hbytes & _).
      change (p_align t d i) with (read_uint e FmtI d (off + 0x1c)) in *.
      apply read_uint_Some_inv in Ha as Ha2. destruct Ha2 as [_ Ha2].
      change (int_from_bytes e (slice d (off + 28) (off + 28 + calcsize FmtI)))
        with a in Ha2.
      subst a'. rewrite Ha. destruct (N.eqb_spec ty 1); [|done].
      split; [done|]. exact Hbytes.
  - intros Hb. split.
    { intros Hlen. destruct (header_in_bounds d c b H4 H5 Hlen) as [t Hh].
      exists t. split; [done|]. apply (patch_segments_total d w t Hh). }
    intros d' m w' Hp.
    destruct (patch_segments_done_header _ _ _ _ Hp) as [t Hh].
    destruct (header_ident _ _ _ _ H4 H5 Hh) as (H64 & He & Hoff & Hnum).
    apply N.eqb_neq in Hb. rewrite Hb in He.
    exists t. split; [done|]. split; [done|].
    apply read_uint_Some_inv in Hoff as [_ Hoff].
    apply read_uint_Some_inv in Hnum as [_ Hnum].
    rewrite He in Hoff, Hnum.
    destruct (patch_segments_spec _ _ _ _ _ _ Hh Hp) as (_ & Hout & Hent & _ & Hw).
    rewrite Hw. split_and!.
    + rewrite Hoff. by destruct (t_is64 t).
    + rewrite Hnum. by destruct (t_is64 t).
    + unfold header_events. destruct (t_is64 t); simpl;
        rewrite elem_of_app; right; rewrite !elem_of_cons; auto 10.
    + intros i Hi ty a. destruct (Hent i Hi) as (ty' & Hty & _ & Hal).
      unfold p_type in Hty. apply read_uint_Some_inv in Hty as [_ Hty].
      rewrite He in Hty. simpl in Hty. fold ty in Hty. subst ty'.
      assert (packed_16kb t =
              if t_is64 t then [x00; x00; x00; x00; x00; x00; x40; x00]
              else [x00; x00; x40; x00]) as Hpacked.
      { unfold packed_16kb. rewrite He. by destruct (t_is64 t). }
      split.
      * intros Hne. apply slice_agree. intros k Hk. apply Hout.
        intros i' _ Hfix Hin. apply needs_fix_true in Hfix as [Hone _].
        destruct (N.eq_dec i' i) as [->|Hdiff].
        -- unfold p_type in Hone. apply read_uint_Some_inv in Hone as [_ Hone].
           rewrite He in Hone. simpl in Hone. by fold ty in Hone.
        -- table_arith.
      * intros Hone. destruct (Hal Hone) as (a' & Ha & Hbytes & _).
        unfold p_align in Ha. apply read_uint_Some_inv in Ha as [_ Ha].
        rewrite He in Ha. simpl in Ha.
        change (slice d (align_offset t i)
                  (align_offset t i + calcsize (align_fmt (t_is64 t))))
          with (align_bytes t d i) in Ha.
        fold a in Ha. subst a'. by rewrite <- Hpacked.
Qed.

(* ------------------------------------------------------------------------- *)
(** ** The specification on the concrete images *)

Lemma load_alignment_raised_witness :
  ∃ a, p_align elf32_be_table elf32_be 2 = Some a ∧
    (a < 0x4000 →
       align_bytes elf32_be_table elf32_be_out 2 = int_to_bytes BigEndian FmtI 0x4000 ∧
       p_align elf32_be_table elf32_be_out 2 = Some 0x4000 ∧ true = true) ∧
    (0x4000 ≤ a →
       align_bytes elf32_be_table elf32_be_out 2 = align_bytes elf32_be_table elf32_be 2).
Proof.
  apply (proj2 (load_alignment_raised_to_16kb elf32_be_table 2)
           elf32_be (World None []) elf32_be_out true
           (world_of (patch_segments elf32_be (World None [])))).
  - vm_compute. reflexivity.
  - vm_compute. reflexivity.
  - vm_compute. reflexivity.
  - vm_compute. reflexivity.
Defined.

Lemma bytes_outside_load_alignment_witness :
  ∃ t d', header elf64_4k = Some t ∧ file (world_of (run elf64_4k)) = Some d' ∧
    len d' = len elf64_4k ∧
    ∀ k, (∀ i, i < t_phnum t → p_type t elf64_4k i = Some 1 → ¬ in_align_field t i k) →
         byte_at d' k = byte_at elf64_4k k.
Proof.
  apply (bytes_outside_load_alignment_kept elf64_4k (world_of (run elf64_4k))).
  vm_compute. reflexivity.
Defined.

Lemma load_alignment_monotonic_witness :
  ∃ t w' d', header elf32_be = Some t ∧ run elf32_be = Done true w' ∧
    file w' = Some d' ∧ header d' = Some t ∧
    ∀ i, i < t_phnum t → p_type t d' i = Some 1 →
      ∃ a a', p_align t elf32_be i = Some a ∧ p_align t d' i = Some a' ∧
              0x4000 ≤ a' ∧ a ≤ a'.
Proof.
  apply (load_alignment_monotonic elf32_be).
  split; [vm_compute; reflexivity|]. exists elf32_be_table.
  split_and!; vm_compute; (reflexivity || discriminate).
Defined.

Lemma second_pass_witness :
  ∃ w1 d', run elf64_4k = Done true w1 ∧ file w1 = Some d' ∧
    (∀ w, ∃ w2, patch_segments d' w = Done (d', false) w2) ∧
    ∃ evs, align_elf_to_16kb w1 = Done true (log evs w1) ∧ EvOpenWrite ∉ evs.
Proof.
  apply (second_pass_changes_nothing elf64_4k).
  split; [vm_compute; reflexivity|]. exists elf64_4k_table.
  split_and!; vm_compute; (reflexivity || discriminate).
Defined.

Lemma program_header_table_located_witness :
  patch_segments elf64_4k (World None []) =
  for_each (range 1) (elf64_segment LittleEndian 64 56) (elf64_4k, false)
    (log [EvGetItem 4; EvGetItem 5; EvGetSlice 0x20 0x28; EvGetSlice 0x38 0x3a;
          EvPrint (MsgElf64 1 64)] (World None [])).
Proof.
  apply (program_header_table_located elf64_4k (World None []) x02 x01).
  - vm_compute. reflexivity.
  - vm_compute. reflexivity.
  - vm_compute. reflexivity.
  - vm_compute. discriminate.
Defined.

Lemma entries_visited_witness :
  events (world_of (patch_segments elf32_be (World None []))) =
  events (World None []) ++ header_events elf32_be_table ++
  flat_map (segment_events elf32_be_table elf32_be) (range 3).
Proof.
  apply (entries_visited_in_table_order elf32_be (World None []) elf32_be_table
           elf32_be_out true (world_of (patch_segments elf32_be (World None [])))).
  - vm_compute. reflexivity.
  - vm_compute. reflexivity.
Defined.

Lemma written_back_witness :
  ∃ w', run elf64_4k = Done true w' ∧
    (EvOpenWrite ∈ events w' ↔ true = true) ∧
    file w' = Some elf64_16k ∧
    events w' =
      events (world_of (patch_segments elf64_4k
                          (World (Some elf64_4k) [EvOpenRead; EvGetSlice 0 4]))) ++
      [EvOpenWrite; EvPrint MsgAligned].
Proof.
  apply (written_back_iff_modified elf64_4k elf64_16k true
           (world_of (patch_segments elf64_4k
                        (World (Some elf64_4k) [EvOpenRead; EvGetSlice 0 4])))).
  - vm_compute. reflexivity.
  - vm_compute. reflexivity.
Defined.

Lemma identification_bytes_witness :
  run elf_odd_ident ≠ Done false (World (Some elf_odd_ident) []) ∧
  (∃ d' m w', patch_segments elf_odd_ident (World None []) = Done (d', m) w') ∧
  (∃ t, header elf_odd_ident = Some t ∧
        align_bytes t (poke 4 [x07; x09] elf32_be_out) 2 = [x00; x00; x40; x00]).
Proof.
  destruct (identification_bytes_not_validated elf_odd_ident (World None [])
              x07 x09 eq_refl eq_refl) as (Hmagic & H32 & Hbe).
  assert (Byte.to_N x07 ≠ 2) as Hc by (vm_compute; discriminate).
  assert (Byte.to_N x09 ≠ 1) as Hb by (vm_compute; discriminate).
  split_and!.
  - apply Hmagic. vm_compute. reflexivity.
  - destruct (H32 Hc) as [Htot _]. apply Htot; vm_compute; discriminate.
  - destruct (Hbe Hb) as [_ Hdone].
    destruct (Hdone (poke 4 [x07; x09] elf32_be_out) true
                (world_of (patch_segments elf_odd_ident (World None []))))
      as (t & Hh & _ & _ & _ & _ & Hent); [vm_compute; reflexivity|].
    exists t. split; [done|].
    vm_compute in Hh. injection Hh as <-.
    exact (proj2 (Hent 2 eq_refl) eq_refl).
Defined.

(** C10.  The image [elf64_truncated] has the magic and a header that declares
    one 56-byte entry at offset 64, so a table that ends at 120, but is only
    100 bytes long.  The type of entry 0 is read, and the read of its
    alignment field, [data[112:120]], raises [struct.error]: that slice is the
    last thing in the trace, nothing was packed, no failure line was printed,
    the file was not opened for writing and holds the bytes it held. *)
Theorem truncated_table_raises :
  ∃ d t,
    slice d 0 4 = ELFMAG ∧ header d = Some t ∧
    t = Table true LittleEndian 64 1 ∧ len d = 100 ∧
    len d < t_phoff t + t_phnum t * phentsize (t_is64 t) ∧
    p_type t d 0 = Some 1 ∧ p_align t d 0 = None ∧
    run d =
      Raised StructError
        (World (Some d)
           [EvOpenRead; EvGetSlice 0 4; EvGetItem 4; EvGetItem 5;
            EvGetSlice 32 40; EvGetSlice 56 58; EvPrint (MsgElf64 1 64);
            EvGetSlice 64 68; EvGetSlice 112 120]).
Proof.
  exists elf64_truncated, elf64_4k_table. split_and!; vm_compute; reflexivity.
Qed.

(* ------------------------------------------------------------------------- *)
(** ** Further properties *)

(** An entry whose type field is cut off by the end of the image makes the
    script raise [struct.error]; the file is as it was and was not opened for
    writing. *)
Lemma truncated_entry_raises d t i :
  slice d 0 4 = ELFMAG → header d = Some t →
  i < t_phnum t → len d < ph_offset t i + 4 →
  ∃ evs, run d = Raised StructError (World (Some d) evs) ∧ EvOpenWrite ∉ evs.
Proof.
  intros Hmagic Hh Hi Hcut. unfold run.
  rewrite (align_elf (World (Some d) []) d eq_refl Hmagic).
  rewrite (patch_segments_closed _ _ t Hh), range_indices.
  rewrite (loop_truncated t _ 0 d false i), <- range_indices.
  - exists ([EvOpenRead; EvGetSlice 0 4] ++ header_events t ++
            loop_events t (range (t_phnum t)) (d, false)).
    split; [by rewrite log_log|]. rewrite !not_elem_of_app. split_and!.
    + not_in_list.
    + apply header_events_no_write.
    + apply loop_events_no_write.
  - apply elem_of_indices_from. lia.
  - done.
Qed.

(** [modified] is set exactly when some type-1 entry had an alignment below
    [0x4000]. *)
Theorem modified_iff_some_alignment_below d w t d' m w' :
  header d = Some t →
  patch_segments d w = Done (d', m) w' →
  (m = true ↔
   ∃ i, i < t_phnum t ∧ p_type t d i = Some 1 ∧
        ∃ a, p_align t d i = Some a ∧ a < 0x4000).
Proof.
  intros Hh Hrun.
  apply (patch_segments_spec d w t) in Hrun as (_ & _ & _ & -> & _); [|done].
  rewrite existsb_exists. split.
  - intros (i & Hi & Hfix). exists i.
    apply list_elem_of_In, elem_of_range in Hi. apply needs_fix_true in Hfix.
    tauto.
  - intros (i & Hi & Hfix). exists i. split.
    + by apply list_elem_of_In, elem_of_range.
    + apply needs_fix_true. tauto.
Qed.

Lemma modified_iff_witness :
  true = true ↔
  ∃ i, i < t_phnum elf32_be_table ∧ p_type elf32_be_table elf32_be i = Some 1 ∧
       ∃ a, p_align elf32_be_table elf32_be i = Some a ∧ a < 0x4000.
Proof.
  apply (modified_iff_some_alignment_below elf32_be (World None []) elf32_be_table
           elf32_be_out true (world_of (patch_segments elf32_be (World None [])))).
  - vm_compute. reflexivity.
  - vm_compute. reflexivity.
Defined.

(** A path that does not exist: the script prints the error and returns
    failure; no file is created and nothing is opened. *)
Theorem missing_file_reported evs :
  align_elf_to_16kb (World None evs) =
  Done false (World None (evs ++ [EvPrint MsgFileNotFound])).
Proof. by rewrite align_missing. Qed.

(** Without the requirement that the table starts after the ELF header a
    second run can differ from the first: on [elf64_overlap] the first run
    rewrites the bytes of [e_phnum] along with the alignment, and the second
    run raises. *)
Theorem overlapping_table_second_run_raises :
  ∃ w1 w2, run elf64_overlap = Done true w1 ∧
           align_elf_to_16kb w1 = Raised StructError w2.
Proof.
  exists (world_of (run elf64_overlap)),
         (world_of (align_elf_to_16kb (world_of (run elf64_overlap)))).
  split; vm_compute; reflexivity.
Qed.

Lemma truncated_entry_witness :
  ∃ evs, run (take 64 elf64_4k) = Raised StructError (World (Some (take 64 elf64_4k)) evs) ∧
         EvOpenWrite ∉ evs.
Proof.
  apply (truncated_entry_raises (take 64 elf64_4k) elf64_4k_table 0).
  - vm_compute. reflexivity.
  - vm_compute. reflexivity.
  - vm_compute. reflexivity.
  - vm_compute. reflexivity.
Defined.

(** The scenario of the specification: one PT_LOAD entry with alignment
    [0x1000] in a 64-bit little-endian image.  The run rewrites the field to
    [0x4000] and writes the file; a second run on the result writes nothing
    and leaves the same bytes. *)
Example elf64_4k_scenario :
  run elf64_4k =
  Done true (World (Some elf64_16k)
    [EvOpenRead; EvGetSlice 0 4; EvGetItem 4; EvGetItem 5;
     EvGetSlice 32 40; EvGetSlice 56 58; EvPrint (MsgElf64 1 64);
     EvGetSlice 64 68; EvGetSlice 112 120; EvPrint (MsgChanging 0 0x1000);
     EvPackInto FmtQ 112 0x4000; EvOpenWrite; EvPrint MsgAligned]) ∧
  len elf64_16k = len elf64_4k ∧
  p_align elf64_4k_table elf64_16k 0 = Some 0x4000 ∧
  run elf64_16k =
  Done true (World (Some elf64_16k)
    [EvOpenRead; EvGetSlice 0 4; EvGetItem 4; EvGetItem 5;
     EvGetSlice 32 40; EvGetSlice 56 58; EvPrint (MsgElf64 1 64);
     EvGetSlice 64 68; EvGetSlice 112 120; EvPrint (MsgAlready 0 0x4000);
     EvPrint MsgAlreadyAligned]).
Proof. split_and!; vm_compute; reflexivity. Qed.

(** An alignment of [0x10000] stays [0x10000]; a PT_NOTE entry is passed over
    after its type is read; an alignment of 0 becomes [0x4000]. *)
Example elf32_be_scenario :
  run elf32_be =
  Done true (World (Some elf32_be_out)
    [EvOpenRead; EvGetSlice 0 4; EvGetItem 4; EvGetItem 5;
     EvGetSlice 28 32; EvGetSlice 44 46; EvPrint (MsgElf32 3 52);
     EvGetSlice 52 56; EvGetSlice 80 84; EvPrint (MsgAlready 0 0x10000);
     EvGetSlice 84 88;
     EvGetSlice 116 120; EvGetSlice 144 148; EvPrint (MsgChanging 2 0);
     EvPackInto FmtI 144 0x4000; EvOpenWrite; EvPrint MsgAligned]) ∧
  p_align elf32_be_table elf32_be_out 0 = Some 0x10000 ∧
  p_align elf32_be_table elf32_be_out 1 = Some 4 ∧
  p_align elf32_be_table elf32_be_out 2 = Some 0x4000.
Proof. split_and!; vm_compute; reflexivity. Qed.

(** Fewer than four bytes, or four other bytes: the format error. *)
Example short_file_rejected :
  run [x7f; x45; x4c] =
  Done false (World (Some [x7f; x45; x4c])
                [EvOpenRead; EvGetSlice 0 4; EvPrint MsgNotElf]).
Proof. reflexivity. Qed.

(** The magic alone: byte 4 is missing and indexing raises. *)
Example magic_only_raises :
  run ELFMAG =
  Raised IndexError (World (Some ELFMAG) [EvOpenRead; EvGetSlice 0 4; EvGetItem 4]).
Proof. reflexivity. Qed.

(** [align_to_16kb] rounds up to the next multiple of [0x4000]. *)
Theorem align_to_16kb_rounds_up (value : Z) :
  (align_to_16kb value = (value + 0x3fff) / 0x4000 * 0x4000 ∧
   value ≤ align_to_16kb value < value + 0x4000 ∧
   align_to_16kb value mod 0x4000 = 0)%Z.
Proof.
  assert (align_to_16kb value = (value + 0x3fff) / 0x4000 * 0x4000)%Z as E.
  { unfold align_to_16kb. cbv zeta. rewrite <- Z.ldiff_land.
    change (0x4000 - 1)%Z with (Z.ones 14).
    rewrite Z.ldiff_ones_r by lia.
    rewrite Z.shiftl_mul_pow2, Z.shiftr_div_pow2 by lia.
    by replace (value + 16384 - 1)%Z with (value + 16383)%Z by lia. }
  split; [done|]. rewrite E.
  pose proof (Z.div_mod (value + 0x3fff) 0x4000 ltac:(lia)).
  pose proof (Z.mod_pos_bound (value + 0x3fff) 0x4000 ltac:(lia)).
  split; [lia|]. apply Z.mod_mul. lia.
Qed.

(* ------------------------------------------------------------------------- *)
(** ** Which images succeed, which raise *)

Lemma byte_at_None d k : byte_at d k = None ↔ len d ≤ k.
Proof. unfold byte_at, len. rewrite lookup_ge_None. lia. Qed.

(** Readable entries are enough for the loop to end normally. *)
Lemma loop_result_readable t n : ∀ lo d m,
  (∀ i, i ∈ indices_from lo n →
     ∃ ty, p_type t d i = Some ty ∧ (ty = 1 → is_Some (p_align t d i))) →
  is_Some (loop_result t (indices_from lo n) (d, m)).
Proof.
  induction n as [|n IH]; intros lo d m Hr; simpl; [eauto|].
  destruct (Hr lo) as (ty & Hty & Hal); [left|].
  destruct (segment_result t d m lo) as [[d1 m1]|] eqn:Hstep.
  - apply segment_result_spec in Hstep as (_ & Hout & _).
    apply IH. intros i Hi.
    assert (same_entry t d1 d i) as (E1 & E2 & _).
    { apply elem_of_indices_from in Hi.
      apply same_entry_agree. intros k Hk. apply Hout.
      intros [_ Hin]. table_arith. }
    rewrite E1, E2. apply Hr. by right.
  - unfold segment_result in Hstep. rewrite Hty in Hstep.
    destruct (N.eqb_spec ty 1) as [->|]; [|done].
    destruct Hal as [a Ha]; [done|]. rewrite Ha in Hstep.
    by destruct (a <? 0x4000).
Qed.

(** The script returns success exactly on the images with the magic whose
    header can be read and whose entries can be read as far as the loop reads
    them. *)
Theorem run_succeeds_iff d :
  (∃ w', run d = Done true w') ↔
  slice d 0 4 = ELFMAG ∧ ∃ t, header d = Some t ∧ entries_readable t d.
Proof.
  split.
  - intros [w' Hrun].
    apply (align_done _ d) in Hrun as [(? & _)|(_ & Hmagic & Hok)]; [done| |done].
    destruct Hok as (t & d' & m & w1 & Hh & Hp & _).
    split; [done|]. exists t. split; [done|]. intros i Hi.
    apply (patch_segments_spec _ _ t) in Hp as (_ & _ & Hent & _); [|done].
    destruct (Hent i Hi) as (ty & Hty & _ & Hal). exists ty. split; [done|].
    intros Hone. destruct (Hal Hone) as (a & Ha & _). eauto.
  - intros (Hmagic & t & Hh & Hr). unfold run.
    rewrite (align_elf (World (Some d) []) d eq_refl Hmagic).
    rewrite (patch_segments_closed _ _ t Hh), range_indices.
    destruct (loop_result_readable t (N.to_nat (t_phnum t)) 0 d false) as [[d' m] ->].
    { intros i Hi. apply Hr. apply elem_of_indices_from in Hi. lia. }
    destruct m; eauto.
Qed.

(** An image with the magic but fewer than six bytes: the read of the class
    byte or of the byte-order byte raises [IndexError], before anything is
    printed; the file is as it was. *)
Theorem short_image_raises_index_error d :
  slice d 0 4 = ELFMAG → len d < 6 →
  run d =
    Raised IndexError
      (World (Some d)
         ([EvOpenRead; EvGetSlice 0 4; EvGetItem 4] ++
          if len d =? 4 then [] else [EvGetItem 5])).
Proof.
  intros Hmagic Hlen. unfold run.
  rewrite (align_elf (World (Some d) []) d eq_refl Hmagic).
  assert (4 ≤ len d) as Hge.
  { assert (len (slice d 0 4) = 4) as H by by rewrite Hmagic.
    rewrite len_slice in H. lia. }
  unfold patch_segments. cbv [mbind M_bind getitem emit mret M_ret raise]. simpl.
  destruct (N.eqb_spec (len d) 4) as [H4|H4].
  - assert (byte_at d 4 = None) as -> by (apply byte_at_None; lia). done.
  - destruct (byte_at d 4) as [c|] eqn:Hc.
    2:{ apply byte_at_None in Hc. lia. }
    simpl. assert (byte_at d 5 = None) as -> by (apply byte_at_None; lia). done.
Qed.

Lemma segment_result_None_events t d m i :
  segment_result t d m i = None →
  ∃ evs lo hi, segment_events t d i = evs ++ [EvGetSlice lo hi] ∧ len d < hi.
Proof.
  unfold segment_result, segment_events.
  destruct (p_type t d i) as [ty|] eqn:Hty.
  - destruct (ty =? 1); [|done].
    destruct (p_align t d i) as [a|] eqn:Ha; [by destruct (a <? 0x4000)|].
    intros _. exists [EvGetSlice (ph_offset t i) (ph_offset t i + 4)],
                (align_offset t i), (align_end t i).
    split; [done|]. by apply read_uint_None in Ha.
  - intros _. exists [], (ph_offset t i), (ph_offset t i + 4).
    split; [done|]. by apply read_uint_None in Hty.
Qed.

(** The loop raises at a slice that ends past the end of the buffer. *)
Lemma loop_result_None_events t ixs : ∀ d m,
  loop_result t ixs (d, m) = None →
  ∃ evs lo hi,
    loop_events t ixs (d, m) = evs ++ [EvGetSlice lo hi] ∧ len d < hi.
Proof.
  induction ixs as [|i ixs IH]; intros d m; cbn [loop_result loop_events fst snd];
    [done|].
  destruct (segment_result t d m i) as [[d1 m1]|] eqn:Hstep.
  - intros Hrest. apply IH in Hrest as (evs & lo & hi & -> & Hlen).
    apply segment_result_spec in Hstep as (<- & _).
    exists (segment_events t d i ++ evs), lo, hi.
    split; [by rewrite app_assoc|done].
  - intros _. apply segment_result_None_events in Hstep as (evs & lo & hi & -> & Hlen).
    exists evs, lo, hi. split; [by rewrite app_nil_r|done].
Qed.

(** Both identification bytes present, but a fixed-offset field cut off. *)
Lemma header_None_events d w :
  header d = None → 6 ≤ len d →
  ∃ evs lo hi,
    patch_segments d w = Raised StructError (log (evs ++ [EvGetSlice lo hi]) w) ∧
    len d < hi ∧ EvOpenWrite ∉ evs.
Proof.
  intros Hh Hlen. revert Hh. unfold header, patch_segments.
  cbv [mbind M_bind getitem emit mret M_ret raise option_bind]. simpl.
  destruct (byte_at d 4) as [c|] eqn:H4; simpl.
  2:{ apply byte_at_None in H4. lia. }
  destruct (byte_at d 5) as [b|] eqn:H5; simpl.
  2:{ apply byte_at_None in H5. lia. }
  destruct (Byte.to_N c =? 2); simpl.
  - unfold elf64_branch.
    rewrite (read_field_eq _ FmtQ d 0x20).
    destruct (read_uint _ FmtQ d 32) as [phoff|] eqn:Hoff; simpl.
    + rewrite (read_field_eq _ FmtH d 0x38).
      destruct (read_uint _ FmtH d 56) as [phnum|] eqn:Hnum; simpl; [done|].
      intros _. apply read_uint_None in Hnum.
      exists [EvGetItem 4; EvGetItem 5; EvGetSlice 0x20 0x28], 0x38, 0x3a.
      split_and!; [|done|not_in_list].
      unfold log. simpl. by rewrite <- !app_assoc.
    + intros _. apply read_uint_None in Hoff.
      exists [EvGetItem 4; EvGetItem 5], 0x20, 0x28.
      split_and!; [|done|not_in_list].
      unfold log. simpl. by rewrite <- !app_assoc.
  - unfold elf32_branch.
    rewrite (read_field_eq _ FmtI d 0x1c).
    destruct (read_uint _ FmtI d 28) as [phoff|] eqn:Hoff; simpl.
    + rewrite (read_field_eq _ FmtH d 0x2c).
      destruct (read_uint _ FmtH d 44) as [phnum|] eqn:Hnum; simpl; [done|].
      intros _. apply read_uint_None in Hnum.
      exists [EvGetItem 4; EvGetItem 5; EvGetSlice 0x1c 0x20], 0x2c, 0x2e.
      split_and!; [|done|not_in_list].
      unfold log. simpl. by rewrite <- !app_assoc.
    + intros _. apply read_uint_None in Hoff.
      exists [EvGetItem 4; EvGetItem 5], 0x1c, 0x20.
      split_and!; [|done|not_in_list].
      unfold log. simpl. by rewrite <- !app_assoc.
Qed.

(** An image with the magic and both identification bytes of which a header
    field, or a field of an entry the loop visits, does not lie within the
    image: the script raises [struct.error] at the read of such a field.  The
    last thing in the trace is that slice, which ends past the end of the
    image; the file was not opened for writing and is as it was. *)
Theorem unreadable_field_raises_struct_error d :
  slice d 0 4 = ELFMAG → 6 ≤ len d →
  ¬ (∃ t, header d = Some t ∧ entries_readable t d) →
  ∃ evs lo hi,
    run d = Raised StructError (World (Some d) (evs ++ [EvGetSlice lo hi])) ∧
    len d < hi ∧ EvOpenWrite ∉ evs.
Proof.
  intros Hmagic Hlen Hno. unfold run.
  rewrite (align_elf (World (Some d) []) d eq_refl Hmagic).
  destruct (header d) as [t|] eqn:Hh.
  - rewrite (patch_segments_closed _ _ t Hh).
    destruct (loop_result t (range (t_phnum t)) (d, false)) as [[d' m]|] eqn:Hloop.
    + exfalso. apply Hno. exists t. split; [done|]. intros i Hi.
      pose proof (patch_segments_closed d (World None []) t Hh) as Hp.
      rewrite Hloop in Hp.
      apply (patch_segments_spec _ _ t) in Hp as (_ & _ & Hent & _); [|done].
      destruct (Hent i Hi) as (ty & Hty & _ & Hal). exists ty. split; [done|].
      intros Hone. destruct (Hal Hone) as (a & Ha & _). eauto.
    + apply loop_result_None_events in Hloop as (evs & lo & hi & Hevs & Hhi).
      exists ([EvOpenRead; EvGetSlice 0 4] ++ header_events t ++ evs), lo, hi.
      split_and!; [|done|].
      * rewrite Hevs, log_log. unfold log. simpl. by rewrite <- !app_assoc.
      * pose proof (loop_events_no_write t (range (t_phnum t)) (d, false)) as Hnw.
        rewrite Hevs, not_elem_of_app in Hnw.
        rewrite !not_elem_of_app. split_and!;
          [not_in_list|apply header_events_no_write|by destruct Hnw].
  - destruct (header_None_events d (log [EvOpenRead; EvGetSlice 0 4]
                                       (World (Some d) [])) Hh Hlen)
      as (evs & lo & hi & -> & Hhi & Hnw).
    exists ([EvOpenRead; EvGetSlice 0 4] ++ evs), lo, hi.
    split_and!; [|done|].
    + unfold log. simpl. by rewrite <- ?app_assoc.
    + rewrite not_elem_of_app. split; [not_in_list|done].
Qed.

(* ------------------------------------------------------------------------- *)
(** ** When the file is written *)

(** The file is opened for writing at most once, and after every access to
    the buffer: the trace of a run splits into a part without a write and a
    part that is empty or starts with the one write and goes on with lines
    printed only.  Without that write the file holds what it held. *)
Theorem write_follows_every_access d :
  ∃ pre post,
    events (world_of (run d)) = pre ++ post ∧
    (EvOpenWrite ∉ pre) ∧
    (post = [] ∧ file (world_of (run d)) = Some d ∨
     ∃ rest, post = EvOpenWrite :: rest ∧
             ∀ ev, ev ∈ rest → ∃ m, ev = EvPrint m).
Proof.
  unfold run. destruct (decide (slice d 0 4 = ELFMAG)) as [Hmagic|Hne].
  - rewrite (align_elf (World (Some d) []) d eq_refl Hmagic).
    destruct (patch_segments d _) as [[d' m] w1|x w1] eqn:Hp.
    + apply patch_segments_done_log in Hp as (evs & -> & Hnw).
      destruct m; simpl.
      * exists ([EvOpenRead; EvGetSlice 0 4] ++ evs), [EvOpenWrite; EvPrint MsgAligned].
        split_and!; [done| |].
        -- rewrite not_elem_of_app. split; [not_in_list|done].
        -- right. exists [EvPrint MsgAligned]. split; [done|].
           intros ev Hev. apply elem_of_cons in Hev as [->|Hev]; [eauto|].
           by apply elem_of_nil in Hev.
      * exists (([EvOpenRead; EvGetSlice 0 4] ++ evs) ++ [EvPrint MsgAlreadyAligned]), [].
        split_and!; [by rewrite app_nil_r| |].
        -- rewrite !not_elem_of_app. split_and!; [not_in_list|done|not_in_list].
        -- by left.
    + apply patch_segments_raised in Hp as (evs & -> & Hnw). simpl.
      exists ([EvOpenRead; EvGetSlice 0 4] ++ evs), [].
      split_and!; [by rewrite app_nil_r| |by left].
      rewrite not_elem_of_app. split; [not_in_list|done].
  - rewrite (align_not_elf (World (Some d) []) d eq_refl Hne). simpl.
    exists [EvOpenRead; EvGetSlice 0 4; EvPrint MsgNotElf], [].
    split_and!; [done|not_in_list|by left].
Qed.

(* ------------------------------------------------------------------------- *)
(** ** What a completed pass leaves *)

(** After a completed pass every visited entry has the type it had; a type-1
    entry has the larger of its old alignment and [0x4000]; any other entry
    has every byte it had. *)
Theorem alignment_becomes_max d w t d' m w' :
  header d = Some t →
  patch_segments d w = Done (d', m) w' →
  ∀ i, i < t_phnum t →
    ∃ ty, p_type t d i = Some ty ∧ p_type t d' i = Some ty ∧
      (ty = 1 → ∃ a, p_align t d i = Some a ∧
                     p_align t d' i = Some (N.max a 0x4000)) ∧
      (ty ≠ 1 → agree_on (ph_offset t i) (align_end t i) d d').
Proof.
  intros Hh Hrun i Hi.
  apply (patch_segments_spec d w t) in Hrun as (_ & Hout & Hent & _); [|done].
  destruct (Hent i Hi) as (ty & Hty & Hty' & Hal).
  exists ty. split_and!; [done|done| |].
  - intros Hone. destruct (Hal Hone) as (a & Ha & _ & Hpost).
    exists a. split; [done|]. rewrite Hpost. f_equal.
    destruct (N.ltb_spec a 0x4000); lia.
  - intros Hne k Hk. symmetry. apply Hout. intros i' Hi' Hfix Hin.
    apply needs_fix_true in Hfix as [Hty1 _].
    destruct (decide (i' = i)) as [->|Hii]; [congruence|].
    table_arith.
Qed.

Lemma leading_bytes_agree d w t d' m w' :
  header d = Some t →
  patch_segments d w = Done (d', m) w' →
  agree_on 0 (align_field (t_is64 t)) d d' ∧
  agree_on 0 28 d d' ∧
  slice d' 0 4 = slice d 0 4 ∧
  byte_at d' 4 = byte_at d 4 ∧ byte_at d' 5 = byte_at d 5.
Proof.
  intros Hh Hrun.
  apply (patch_segments_spec d w t) in Hrun as (_ & Hout & _); [|done].
  assert (agree_on 0 (align_field (t_is64 t)) d d') as Hag.
  { intros k Hk. symmetry. apply Hout. intros i _ _ Hin. table_arith. }
  assert (agree_on 0 28 d d') as Hag28.
  { intros k Hk. apply Hag. destruct (t_is64 t); simpl; lia. }
  split_and!; [done|done|..].
  - symmetry. apply slice_agree. intros k Hk. apply Hag28. lia.
  - symmetry. apply Hag28. lia.
  - symmetry. apply Hag28. lia.
Qed.

Lemma aligned_pass_noop d t :
  header d = Some t →
  (∀ i, i < t_phnum t →
     ∃ ty, p_type t d i = Some ty ∧
       (ty = 1 → ∃ a, p_align t d i = Some a ∧ 0x4000 ≤ a)) →
  ∀ w, ∃ w', patch_segments d w = Done (d, false) w'.
Proof.
  intros Hh Hal w.
  rewrite (patch_segments_closed _ _ t Hh), range_indices.
  destruct (loop_result_readable t (N.to_nat (t_phnum t)) 0 d false) as [[d' m] Hres].
  { intros i Hi. apply elem_of_indices_from in Hi.
    destruct (Hal i) as (ty & Hty & Ha); [lia|]. exists ty. split; [done|].
    intros Hone. destruct (Ha Hone) as (a & -> & _). eauto. }
  rewrite Hres. eexists.
  assert (patch_segments d w = Done (d', m)
            (log (header_events t ++
                  loop_events t (range (t_phnum t)) (d, false)) w)) as Hp.
  { by rewrite (patch_segments_closed _ _ t Hh), range_indices, Hres. }
  assert (m = false) as ->.
  { pose proof Hp as Hspec.
    apply (patch_segments_spec _ _ t) in Hspec as (_ & _ & _ & -> & _); [|done].
    apply existsb_false_in. intros i Hi. apply elem_of_range in Hi.
    destruct (needs_fix t d i) eqn:Hfix; [|done].
    apply needs_fix_true in Hfix as (Hty & a' & Ha' & Hlt).
    destruct (Hal i Hi) as (ty & Hty' & Ha).
    destruct Ha as (a & Ha & Hge); [congruence|].
    assert (a = a') by congruence. lia. }
  by rewrite (patch_segments_unmodified _ _ _ _ _ Hh Hp).
Qed.

(** A completed pass never changes a byte before offset 28, nor, in the
    64-bit layout, before offset 48: the magic and the identification bytes
    stay, and so does [e_phoff] of a 64-bit header. *)
Theorem leading_bytes_never_changed d w t d' m w' :
  header d = Some t →
  patch_segments d w = Done (d', m) w' →
  agree_on 0 (align_field (t_is64 t)) d d' ∧
  agree_on 0 28 d d' ∧
  slice d' 0 4 = slice d 0 4 ∧
  byte_at d' 4 = byte_at d 4 ∧ byte_at d' 5 = byte_at d 5.
Proof. apply leading_bytes_agree. Qed.

(** On an image whose entries can be read and whose type-1 entries all have
    an alignment of [0x4000] or more, the pass returns the buffer it was given
    and [modified] false. *)
Theorem aligned_image_is_fixed_point d t :
  header d = Some t →
  (∀ i, i < t_phnum t →
     ∃ ty, p_type t d i = Some ty ∧
       (ty = 1 → ∃ a, p_align t d i = Some a ∧ 0x4000 ≤ a)) →
  ∀ w, ∃ w', patch_segments d w = Done (d, false) w'.
Proof. apply aligned_pass_noop. Qed.

(** If a successful run leaves the header as it was, a second pass over the
    image it leaves changes nothing and a second run does not open the file
    for writing. *)
Theorem second_run_noop_when_header_kept d w1 d' :
  run d = Done true w1 → file w1 = Some d' → header d' = header d →
  (∀ w, ∃ w2, patch_segments d' w = Done (d', false) w2) ∧
  ∃ evs, align_elf_to_16kb w1 = Done true (log evs w1) ∧ EvOpenWrite ∉ evs.
Proof.
  intros Hrun Hfile Hkept.
  apply (align_done _ d) in Hrun as [(? & _)|(_ & Hmagic & Hok)]; [done| |done].
  destruct Hok as (t & d0 & m & w0 & Hh & Hp & Hfile0 & _).
  assert (d0 = d') as -> by congruence.
  assert (∀ w, ∃ w2, patch_segments d' w = Done (d', false) w2) as Hsecond.
  { apply (aligned_pass_noop d' t); [congruence|].
    intros i Hi.
    apply (patch_segments_spec _ _ t) in Hp as (_ & _ & Hent & _); [|done].
    destruct (Hent i Hi) as (ty & _ & Hty' & Hal). exists ty. split; [done|].
    intros Hone. destruct (Hal Hone) as (a & _ & _ & Hpost).
    eexists. split; [done|]. destruct (N.ltb_spec a 0x4000); lia. }
  split; [done|].
  assert (slice d' 0 4 = ELFMAG) as Hmagic'.
  { rewrite <- Hmagic.
    by apply (leading_bytes_agree _ _ _ _ _ _ Hh) in Hp as (_ & _ & ? & _). }
  rewrite (align_elf w1 d' Hfile Hmagic').
  destruct (Hsecond (log [EvOpenRead; EvGetSlice 0 4] w1)) as (w2 & Hp2).
  rewrite Hp2. apply patch_segments_done_log in Hp2 as (evs & -> & Hno).
  exists ([EvOpenRead; EvGetSlice 0 4] ++ evs ++ [EvPrint MsgAlreadyAligned]).
  split; [by rewrite !log_log|].
  rewrite !not_elem_of_app. split_and!; [not_in_list|done|not_in_list].
Qed.

(** The bytes a completed pass leaves: in the alignment field of an entry of
    type 1 whose alignment was below [0x4000], the bytes of the packed
    [0x4000]; everywhere else the byte that was there. *)
Theorem patched_bytes d w t d' m w' :
  header d = Some t →
  patch_segments d w = Done (d', m) w' →
  ∀ k,
    (∀ i, i < t_phnum t → needs_fix t d i = true → in_align_field t i k →
          byte_at d' k = byte_at (packed_16kb t) (k - align_offset t i)) ∧
    ((∀ i, i < t_phnum t → needs_fix t d i = true → ¬ in_align_field t i k) →
     byte_at d' k = byte_at d k).
Proof.
  intros Hh Hrun k.
  apply (patch_segments_spec d w t) in Hrun as (_ & Hout & Hent & _); [|done].
  split; [|apply Hout].
  intros i Hi Hfix Hin. apply needs_fix_true in Hfix as (Hty & a & Ha & Hlt).
  destruct (Hent i Hi) as (ty & Hty' & _ & Hal).
  destruct Hal as (a' & Ha' & Hbytes & _); [congruence|].
  assert (a' = a) as -> by congruence.
  apply N.ltb_lt in Hlt. rewrite Hlt in Hbytes.
  rewrite <- Hbytes. unfold align_bytes. rewrite byte_at_slice.
  unfold in_align_field in Hin.
  rewrite decide_True by lia. f_equal. lia.
Qed.

(* ------------------------------------------------------------------------- *)
(** ** Only two bytes of a field ever change *)

Lemma byte_of_to_N b : byte_of_N (Byte.to_N b) = b.
Proof.
  unfold byte_of_N. pose proof (Byte.to_N_bounded b).
  rewrite N.mod_small by lia. by rewrite Byte.of_to_N.
Qed.

Lemma to_N_zero b : Byte.to_N b = 0 → b = x00.
Proof. intros H. rewrite <- (byte_of_to_N b), H. done. Qed.

(** A little-endian number below [256 ^ n] has zero bytes from position [n]
    on. *)
Lemma le_decode_high_zero bs : ∀ n j,
  le_decode bs < 256 ^ N.of_nat n → (n ≤ j)%nat → (j < length bs)%nat →
  bs !! j = Some x00.
Proof.
  induction bs as [|b bs IH]; intros n j Hlt Hn Hj; simpl in *; [lia|].
  pose proof (Byte.to_N_bounded b).
  destruct n as [|n].
  - simpl in Hlt.
    assert (Byte.to_N b = 0 ∧ le_decode bs = 0) as [Hb Hbs] by lia.
    destruct j as [|j]; simpl.
    + f_equal. by apply to_N_zero.
    + apply (IH 0%nat); [rewrite Hbs; simpl|..]; lia.
  - destruct j as [|j]; [lia|]. simpl.
    apply (IH n); [|lia..].
    rewrite Nat2N.inj_succ, N.pow_succ_r' in Hlt. lia.
Qed.

(** A field whose value is below [2^16] is zero outside its two least
    significant bytes. *)
Lemma high_bytes_zero e bs j :
  int_from_bytes e bs < 65536 → j < len bs →
  match e with LittleEndian => 2 ≤ j | BigEndian => j + 2 < len bs end →
  byte_at bs j = Some x00.
Proof.
  unfold byte_at, len. intros Hv Hj Hpos. destruct e; simpl in Hv.
  - apply (le_decode_high_zero bs 2); [done|lia..].
  - rewrite rev_alt in Hv. fold (reverse bs) in Hv.
    rewrite <- (reverse_involutive bs).
    rewrite reverse_lookup by (rewrite length_reverse; lia).
    rewrite length_reverse.
    apply (le_decode_high_zero (reverse bs) 2); [done|..];
      rewrite ?length_reverse; lia.
Qed.

Lemma packed_16kb_value t : int_from_bytes (t_endian t) (packed_16kb t) = 0x4000.
Proof. by destruct t as [[] [] ? ?]. Qed.

(** A completed pass changes no byte other than the two least significant
    bytes of the alignment fields of the type-1 entries whose alignment was
    below [0x4000]. *)
Theorem only_low_bytes_change d w t d' m w' :
  header d = Some t →
  patch_segments d w = Done (d', m) w' →
  ∀ k, (∀ i, i < t_phnum t → needs_fix t d i = true → ¬ low_bytes t i k) →
       byte_at d' k = byte_at d k.
Proof.
  intros Hh Hrun k Hk.
  apply (patch_segments_spec d w t) in Hrun as (_ & Hout & Hent & _); [|done].
  assert (∀ i, Decision (needs_fix t d i = true ∧ in_align_field t i k)) as Hdec.
  { intros i. unfold in_align_field. apply _. }
  destruct (decide (Exists (λ i, needs_fix t d i = true ∧ in_align_field t i k)
                      (range (t_phnum t)))) as [Hex|Hno].
  2:{ apply Hout. intros i Hi Hfix Hin. apply Hno, Exists_exists.
      exists i. split; [by apply elem_of_range|done]. }
  apply Exists_exists in Hex as (i & Hi & Hfix & Hin).
  apply elem_of_range in Hi. specialize (Hk i Hi Hfix).
  apply needs_fix_true in Hfix as (Hty & a & Ha & Hlt).
  destruct (Hent i Hi) as (ty & Hty' & _ & Hal).
  destruct Hal as (a' & Ha' & Hbytes & _); [congruence|].
  assert (a' = a) as -> by congruence.
  apply N.ltb_lt in Hlt as Hb. rewrite Hb in Hbytes.
  unfold in_align_field in Hin.
  set (j := k - align_offset t i).
  set (size := calcsize (align_fmt (t_is64 t))).
  assert (j < size) as Hj by (unfold j, size, align_end in *; lia).
  (* both the old and the new field are zero at position [j] *)
  assert (match t_endian t with LittleEndian => 2 ≤ j | BigEndian => j + 2 < size end)
    as Hpos.
  { unfold low_bytes in Hk. unfold j, size, align_end in *.
    destruct (t_endian t); lia. }
  assert (byte_at (align_bytes t d' i) j = Some x00) as Hnew.
  { rewrite Hbytes. apply (high_bytes_zero (t_endian t)).
    - by rewrite packed_16kb_value.
    - by rewrite len_packed_16kb.
    - by rewrite len_packed_16kb. }
  assert (byte_at (align_bytes t d i) j = Some x00) as Hold.
  { unfold p_align, read_uint in Ha. fold (align_end t i) in Ha.
    fold (align_bytes t d i) in Ha.
    fold size in Ha.
    destruct (len (align_bytes t d i) =? size) eqn:E; [|done].
    injection Ha as Ha.
    apply N.eqb_eq in E. apply (high_bytes_zero (t_endian t)).
    - rewrite Ha. lia.
    - by rewrite E.
    - by rewrite E. }
  unfold align_bytes in Hnew, Hold. rewrite byte_at_slice in Hnew, Hold.
  unfold align_end in Hnew, Hold. fold size in Hnew, Hold.
  rewrite decide_True in Hnew, Hold by lia.
  replace (align_offset t i + j) with k in Hnew, Hold by (unfold j; lia).
  by rewrite Hnew, Hold.
Qed.

(* ------------------------------------------------------------------------- *)
(** ** What is printed *)

Lemma printed_app evs evs' : printed (evs ++ evs') = printed evs ++ printed evs'.
Proof. unfold printed. apply omap_app. Qed.

Lemma printed_segment_events t d i :
  printed (segment_events t d i) = option_list (segment_line t d i).
Proof.
  unfold segment_events, segment_line.
  destruct (p_type t d i) as [ty|]; [|done].
  destruct (ty =? 1); [|done].
  destruct (p_align t d i) as [a|]; [|done].
  by destruct (a <? 0x4000).
Qed.

Lemma printed_flat_map t d l :
  printed (flat_map (segment_events t d) l) = omap (segment_line t d) l.
Proof.
  induction l as [|i l IH]; [done|].
  cbn [flat_map]. rewrite printed_app, printed_segment_events, IH.
  simpl. by destruct (segment_line t d i).
Qed.

(** A successful run prints the header line, then one line for each entry of
    type 1 and none for any other entry, in table order, then the summary:
    "aligned" if some alignment was raised, "already aligned" if none was. *)
Theorem lines_printed d w' :
  run d = Done true w' →
  ∃ t, header d = Some t ∧
    printed (events w') =
      (if t_is64 t then MsgElf64 (t_phnum t) (t_phoff t)
       else MsgElf32 (t_phnum t) (t_phoff t)) ::
      omap (segment_line t d) (range (t_phnum t)) ++
      [if existsb (needs_fix t d) (range (t_phnum t))
       then MsgAligned else MsgAlreadyAligned] ∧
    ∀ i, i < t_phnum t →
      (is_Some (segment_line t d i) ↔ p_type t d i = Some 1).
Proof.
  intros Hrun.
  apply (align_done _ d) in Hrun as [(? & _)|(_ & _ & Hok)]; [done| |done].
  destruct Hok as (t & d' & m & w1 & Hh & Hp & _ & Hev).
  exists t. split; [done|].
  apply (patch_segments_spec _ _ t) in Hp as (_ & _ & Hent & -> & ->); [|done].
  split.
  - rewrite Hev. simpl. rewrite !printed_app, printed_flat_map.
    destruct (t_is64 t); simpl;
      by destruct (existsb (needs_fix t d) (range (t_phnum t))).
  - intros i Hi. destruct (Hent i Hi) as (ty & Hty & _ & Hal).
    unfold segment_line. rewrite Hty.
    destruct (N.eqb_spec ty 1) as [->|Hne].
    + destruct Hal as (a & -> & _); [done|]. split; [done|]. intros _. by eexists.
    + split; [by intros [? ?]|]. intros [= ?]. done.
Qed.

(* ------------------------------------------------------------------------- *)
(** ** [align_to_16kb] *)

Lemma align_to_16kb_eq (value : Z) :
  (align_to_16kb value = (value + 0x3fff) / 0x4000 * 0x4000)%Z.
Proof.
  unfold align_to_16kb. cbv zeta. rewrite <- Z.ldiff_land.
  change (0x4000 - 1)%Z with (Z.ones 14).
  rewrite Z.ldiff_ones_r by lia.
  rewrite Z.shiftl_mul_pow2, Z.shiftr_div_pow2 by lia.
  by replace (value + 16384 - 1)%Z with (value + 16383)%Z by lia.
Qed.

(** [align_to_16kb] is idempotent and monotone, and its fixed points are the
    multiples of [0x4000], negative ones included. *)
Theorem align_to_16kb_closure :
  (∀ v, align_to_16kb (align_to_16kb v) = align_to_16kb v) ∧
  (∀ v, align_to_16kb v = v ↔ (v mod 0x4000 = 0)%Z) ∧
  (∀ u v, (u ≤ v)%Z → (align_to_16kb u ≤ align_to_16kb v)%Z).
Proof.
  assert (∀ q, align_to_16kb (q * 0x4000) = q * 0x4000)%Z as Hfix.
  { intros q. rewrite align_to_16kb_eq. f_equal.
    rewrite Z.add_comm, Z.div_add by lia. done. }
  split_and!.
  - intros v. rewrite (align_to_16kb_eq v). apply Hfix.
  - intros v. split.
    + intros <-. rewrite align_to_16kb_eq. apply Z.mod_mul. lia.
    + intros Hmod. pose proof (Z.div_mod v 0x4000 ltac:(lia)) as Hv.
      rewrite Hmod, Z.add_0_r, Z.mul_comm in Hv.
      rewrite Hv at 1. rewrite Hfix. lia.
  - intros u v Huv. rewrite !align_to_16kb_eq.
    apply Z.mul_le_mono_nonneg_r; [lia|].
    apply Z.div_le_mono; lia.
Qed.

(* ------------------------------------------------------------------------- *)
(** ** The further properties on the concrete images *)

Lemma alignment_becomes_max_witness :
  ∃ ty, p_type elf32_be_table elf32_be 2 = Some ty ∧
    p_type elf32_be_table elf32_be_out 2 = Some ty ∧
    (ty = 1 → ∃ a, p_align elf32_be_table elf32_be 2 = Some a ∧
                   p_align elf32_be_table elf32_be_out 2 = Some (N.max a 0x4000)) ∧
    (ty ≠ 1 → agree_on (ph_offset elf32_be_table 2) (align_end elf32_be_table 2)
                elf32_be elf32_be_out).
Proof.
  apply (alignment_becomes_max elf32_be (World None []) elf32_be_table
           elf32_be_out true (world_of (patch_segments elf32_be (World None [])))).
  - vm_compute. reflexivity.
  - vm_compute. reflexivity.
  - vm_compute. reflexivity.
Defined.

Lemma leading_bytes_witness :
  agree_on 0 (align_field (t_is64 elf64_4k_table)) elf64_4k elf64_16k ∧
  agree_on 0 28 elf64_4k elf64_16k ∧
  slice elf64_16k 0 4 = slice elf64_4k 0 4 ∧
  byte_at elf64_16k 4 = byte_at elf64_4k 4 ∧
  byte_at elf64_16k 5 = byte_at elf64_4k 5.
Proof.
  apply (leading_bytes_never_changed elf64_4k (World None []) elf64_4k_table
           elf64_16k true (world_of (patch_segments elf64_4k (World None [])))).
  - vm_compute. reflexivity.
  - vm_compute. reflexivity.
Defined.

Lemma aligned_image_witness :
  ∃ w', patch_segments elf64_16k (World None []) = Done (elf64_16k, false) w'.
Proof.
  apply (aligned_image_is_fixed_point elf64_16k elf64_4k_table).
  - vm_compute. reflexivity.
  - intros i Hi. assert (i = 0) as -> by (simpl in Hi; lia).
    exists 1. split; [vm_compute; reflexivity|]. intros _.
    exists 0x4000. split; [vm_compute; reflexivity|]. lia.
Defined.

Lemma second_run_noop_witness :
  (∀ w, ∃ w2, patch_segments elf64_16k w = Done (elf64_16k, false) w2) ∧
  ∃ evs, align_elf_to_16kb (world_of (run elf64_4k)) =
           Done true (log evs (world_of (run elf64_4k))) ∧
         EvOpenWrite ∉ evs.
Proof.
  apply (second_run_noop_when_header_kept elf64_4k (world_of (run elf64_4k)) elf64_16k).
  - vm_compute. reflexivity.
  - vm_compute. reflexivity.
  - vm_compute. reflexivity.
Defined.

Lemma patched_bytes_witness :
  (∀ i, i < t_phnum elf32_be_table → needs_fix elf32_be_table elf32_be i = true →
        in_align_field elf32_be_table i 146 →
        byte_at elf32_be_out 146 =
        byte_at (packed_16kb elf32_be_table) (146 - align_offset elf32_be_table i)) ∧
  ((∀ i, i < t_phnum elf32_be_table → needs_fix elf32_be_table elf32_be i = true →
         ¬ in_align_field elf32_be_table i 146) →
   byte_at elf32_be_out 146 = byte_at elf32_be 146).
Proof.
  apply (patched_bytes elf32_be (World None []) elf32_be_table
           elf32_be_out true (world_of (patch_segments elf32_be (World None [])))).
  - vm_compute. reflexivity.
  - vm_compute. reflexivity.
Defined.

Lemma only_low_bytes_witness :
  byte_at elf32_be_out 144 = byte_at elf32_be 144.
Proof.
  apply (only_low_bytes_change elf32_be (World None []) elf32_be_table
           elf32_be_out true (world_of (patch_segments elf32_be (World None [])))).
  - vm_compute. reflexivity.
  - vm_compute. reflexivity.
  - intros i Hi Hfix. unfold low_bytes, align_end, align_offset, ph_offset.
    simpl. lia.
Defined.

Lemma lines_printed_witness :
  ∃ t, header elf32_be = Some t ∧
    printed (events (world_of (run elf32_be))) =
      (if t_is64 t then MsgElf64 (t_phnum t) (t_phoff t)
       else MsgElf32 (t_phnum t) (t_phoff t)) ::
      omap (segment_line t elf32_be) (range (t_phnum t)) ++
      [if existsb (needs_fix t elf32_be) (range (t_phnum t))
       then MsgAligned else MsgAlreadyAligned] ∧
    ∀ i, i < t_phnum t →
      (is_Some (segment_line t elf32_be i) ↔ p_type t elf32_be i = Some 1).
Proof.
  apply (lines_printed elf32_be (world_of (run elf32_be))).
  vm_compute. reflexivity.
Defined.

Lemma short_image_witness :
  run (ELFMAG ++ [x01]) =
    Raised IndexError
      (World (Some (ELFMAG ++ [x01]))
         [EvOpenRead; EvGetSlice 0 4; EvGetItem 4; EvGetItem 5]).
Proof.
  apply (short_image_raises_index_error (ELFMAG ++ [x01])).
  - vm_compute. reflexivity.
  - vm_compute. reflexivity.
Defined.

Lemma unreadable_field_witness :
  ∃ evs lo hi,
    run elf64_truncated =
      Raised StructError (World (Some elf64_truncated) (evs ++ [EvGetSlice lo hi])) ∧
    len elf64_truncated < hi ∧ EvOpenWrite ∉ evs.
Proof.
  apply (unreadable_field_raises_struct_error elf64_truncated).
  - vm_compute. reflexivity.
  - vm_compute. discriminate.
  - intros (t & Hh & Hr). vm_compute in Hh. injection Hh as <-.
    destruct (Hr 0 eq_refl) as (ty & Hty & Hal).
    vm_compute in Hty. injection Hty as <-.
    destruct (Hal eq_refl) as [a Ha]. vm_compute in Ha. discriminate Ha.
Defined.
